(** * ControlNet API: the job coordinator, the inference gateway and the
      HTTP endpoints, as a shallow embedding of the Python sources.

    Layout of the development (one module per source file):
    - [models]      app/models/generation.py
    - [config]      app/core/config.py
    - [controlnet]  app/services/controlnet.py
    - [job_manager] app/services/job_manager.py
    - [deps]        app/api/deps.py
    - [generation]  app/api/endpoints/generation.py
    - [loop]        the asyncio event loop running several [process_job]
                    coroutines against one [asyncio.Lock]
    - [toy]         a small instance of the libraries, to run the
                    definitions on
    - [reader]      what reads a metadata file back

    Python [int] is [Z]; Python [float] is the binary64 type [float] of the
    kernel, so that float arithmetic rounds exactly as CPython's does; a
    [dict] is a [gmap]; the directory tree under [settings.JOBS_DIR] is a
    [gmap] from relative paths to nodes.  Exceptions are explicit: a
    computation is a function from the program state to an outcome and a new
    state. *)

From Stdlib Require Import ZArith String Ascii List.
From Stdlib Require PrimFloat FloatOps SpecFloat Uint63.
From stdpp Require Import base option list gmap strings pretty.

Open Scope Z_scope.
Set Warnings "-register-all".

(** ** Python values shared by all modules *)

Abbreviation float := PrimFloat.float.

(** [float(z)] for a Python int in the range of a 63-bit machine word (image
    dimensions and the configured bound are far below it). *)
Definition float_of_int (z : Z) : float :=
  if z <? 0 then PrimFloat.opp (PrimFloat.of_uint63 (Uint63.of_Z (- z)))
  else PrimFloat.of_uint63 (Uint63.of_Z z).

(** Exceptions.  Every class below derives from Python's [Exception], which is
    what the [except Exception] clauses of the sources catch. *)
Inductive exn : Type :=
  | ValueError (msg : string)
  | IndexError (msg : string)
  | OverflowError (msg : string)
  | OSError (msg : string)
  | RuntimeError (msg : string)
  | ZeroDivisionError (msg : string)
  | HTTPException (status_code : Z) (detail : string).

(** [str(e)]: the message, and for starlette's [HTTPException] the status
    code, a colon and the detail. *)
Definition str_exn (e : exn) : string :=
  match e with
  | ValueError m | IndexError m | OverflowError m | OSError m | RuntimeError m
  | ZeroDivisionError m => m
  | HTTPException c d => pretty c +:+ ": " +:+ d
  end.

(** [int(x)] on a float: truncation toward zero; it raises on infinities and
    on NaN. *)
Definition int_of_float (x : float) : exn + Z :=
  match FloatOps.Prim2SF x with
  | SpecFloat.S754_zero _ => inr 0
  | SpecFloat.S754_finite s m e =>
      let a := match e with
               | Z0 => Z.pos m
               | Z.pos _ => Z.pos m * 2 ^ e
               | Z.neg k => Z.pos m / 2 ^ Z.pos k
               end in
      inr (if s then - a else a)
  | SpecFloat.S754_infinity _ => inl (OverflowError "cannot convert float infinity to integer")
  | SpecFloat.S754_nan => inl (ValueError "cannot convert float NaN to integer")
  end.

(** JSON-serialisable Python values, as [json.dump] receives them. *)
Inductive json : Type :=
  | JInt (z : Z)
  | JFloat (x : float)
  | JStr (s : string)
  | JList (l : list json)
  | JDict (d : list (string * json)).

(** [d[k]] on a dict given by its items in insertion order. *)
Fixpoint dict_get (k : string) (d : list (string * json)) : option json :=
  match d with
  | [] => None
  | (k', v) :: d' => if decide (k' = k) then Some v else dict_get k d'
  end.

(** ** app/models/generation.py *)
Module models.

Inductive JobStatus : Type := PENDING | PROCESSING | COMPLETED | FAILED.

#[global] Instance JobStatus_eq_dec : EqDecision JobStatus.
Proof. solve_decision. Defined.

(** [JobStatus] is a [str] enum: its value is what is serialised. *)
Definition JobStatus_value (s : JobStatus) : string :=
  match s with
  | PENDING => "pending"
  | PROCESSING => "processing"
  | COMPLETED => "completed"
  | FAILED => "failed"
  end.

Record GenerationParams : Type := mkGenerationParams {
  prompt : string;
  a_prompt : string;
  n_prompt : string;
  num_samples : Z;
  image_resolution : Z;
  ddim_steps : Z;
  strength : float;
  scale : float;
  seed : Z;
  eta : float;
  low_threshold : Z;
  high_threshold : Z
}.

Definition between (lo hi x : Z) : bool := (lo <=? x) && (x <=? hi).
Definition fbetween (lo hi x : float) : bool :=
  PrimFloat.leb lo x && PrimFloat.leb x hi.

(** The [Field(ge=..., le=...)] constraints that pydantic enforces when a
    request body is turned into a [GenerationParams]. *)
Definition valid (p : GenerationParams) : bool :=
  between 1 4 (num_samples p)
  && between 256 1024 (image_resolution p)
  && between 1 100 (ddim_steps p)
  && fbetween (float_of_int 0) (float_of_int 1) (strength p)
  && fbetween (float_of_int 1) (float_of_int 20) (scale p)
  && between 0 255 (low_threshold p)
  && between 0 255 (high_threshold p).

(** [params.model_dump()]: the fields in declaration order. *)
Definition model_dump (p : GenerationParams) : list (string * json) :=
  [ ("prompt", JStr (prompt p));
    ("a_prompt", JStr (a_prompt p));
    ("n_prompt", JStr (n_prompt p));
    ("num_samples", JInt (num_samples p));
    ("image_resolution", JInt (image_resolution p));
    ("ddim_steps", JInt (ddim_steps p));
    ("strength", JFloat (strength p));
    ("scale", JFloat (scale p));
    ("seed", JInt (seed p));
    ("eta", JFloat (eta p));
    ("low_threshold", JInt (low_threshold p));
    ("high_threshold", JInt (high_threshold p)) ].

Definition get_str (k : string) (d : list (string * json)) : option string :=
  match dict_get k d with Some (JStr s) => Some s | _ => None end.
Definition get_int (k : string) (d : list (string * json)) : option Z :=
  match dict_get k d with Some (JInt z) => Some z | _ => None end.
Definition get_float (k : string) (d : list (string * json)) : option float :=
  match dict_get k d with Some (JFloat x) => Some x | _ => None end.

(** Construction of a [GenerationParams] from the keyword arguments of a
    dict holding every field with its own type: the reader's side of [model_dump], with the field constraints
    checked as pydantic does on construction. *)
Definition model_validate (d : list (string * json)) : option GenerationParams :=
  prompt ← get_str "prompt" d;
  a_prompt ← get_str "a_prompt" d;
  n_prompt ← get_str "n_prompt" d;
  num_samples ← get_int "num_samples" d;
  image_resolution ← get_int "image_resolution" d;
  ddim_steps ← get_int "ddim_steps" d;
  strength ← get_float "strength" d;
  scale ← get_float "scale" d;
  seed ← get_int "seed" d;
  eta ← get_float "eta" d;
  low_threshold ← get_int "low_threshold" d;
  high_threshold ← get_int "high_threshold" d;
  let p := mkGenerationParams prompt a_prompt n_prompt num_samples
             image_resolution ddim_steps strength scale seed eta
             low_threshold high_threshold in
  if valid p then Some p else None.

Record JobResponse : Type := mkJobResponse {
  job_id : string;
  status : JobStatus;
  message : option string
}.

Record GenerationResponse : Type := mkGenerationResponse {
  g_job_id : string;
  g_status : JobStatus;
  g_message : option string;
  images : option (list string)
}.

End models.

(** ** app/core/config.py *)
Module config.

Record Settings : Type := mkSettings {
  MAX_IMAGE_SIZE : Z;
  FORCE_CPU : bool
}.

(** The defaults of the class; [JOBS_DIR] is the root that every path of
    the file-system model below is relative to. *)
Definition settings : Settings :=
  {| MAX_IMAGE_SIZE := 2048; FORCE_CPU := false |}.

End config.

(** ** The libraries behind the service

    PIL, OpenCV, torch, numpy and the ControlNet model are no part of the
    repository: they are an interface here.  [image] is a decoded raster (a
    PIL image or a numpy array).  Seeding a generator yields a state that
    depends on the seed alone; sampling reads and advances both generators. *)
Class Backend : Type := {
  image : Type;
  image_size : image → Z * Z;
  (** [Image.open(io.BytesIO(contents))] *)
  Image_open : list Byte.byte → exn + image;
  (** [image.resize(new_size, Image.Resampling.LANCZOS)] *)
  Image_resize : image → Z * Z → exn + image;
  Image_resize_size : ∀ im s im', Image_resize im s = inr im' → image_size im' = s;
  torch_state : Type;
  numpy_state : Type;
  (** [torch.manual_seed(seed)] and [np.random.seed(seed)] *)
  torch_manual_seed : Z → exn + torch_state;
  np_random_seed : Z → exn + numpy_state;
  (** [resize_image(HWC3(input_image), image_resolution)] followed by the
      Canny detector with the two thresholds: the control image *)
  detect_edges : image → Z → Z → Z → exn + image;
  (** the control tensor: the detected map stacked [num_samples] times *)
  stack_control : image → Z → exn + image;
  (** conditioning, [ddim_sampler.sample] and [decode_first_stage]: the
      batch [x_samples] *)
  ddim_sample : image → models.GenerationParams → torch_state * numpy_state →
                (exn + list image) * (torch_state * numpy_state)
}.

(** A path is the list of its components below [settings.JOBS_DIR]. *)
Abbreviation path := (list string).

Section runtime.
Context `{B : Backend}.
Import models.

(** *** The job directories

    A path is the list of its components below [settings.JOBS_DIR]; the map
    answers [Path.exists()] and holds what a file contains.  A PNG file is
    the raster it encodes, a JSON file the value dumped into it.  Components
    are plain names: no path is reached under two spellings. *)
Inductive file_data : Type :=
  | FImage (im : image)
  | FJson (j : json).

Inductive node : Type :=
  | Dir
  | File (d : file_data).

(** Ghost record of the effects, oldest first; no code reads it. *)
Inductive event : Type :=
  | EvStatus (job_id : string) (s : JobStatus)
  | EvWrite (p : path).

Record state : Type := mkState {
  jobs : gmap string JobStatus;               (* JobManager._jobs *)
  fs : gmap path node;                        (* the tree under JOBS_DIR *)
  gen : torch_state * numpy_state;            (* the global generators *)
  log : list event
}.

(** *** Computations that may raise *)
Definition M (A : Type) : Type := state → (exn + A) * state.

Definition ret {A} (a : A) : M A := λ st, (inr a, st).
Definition raise {A} (e : exn) : M A := λ st, (inl e, st).
Definition bind {A C} (m : M A) (k : A → M C) : M C :=
  λ st, match m st with
        | (inr a, st') => k a st'
        | (inl e, st') => (inl e, st')
        end.
(** [try: m  except Exception as e: h e] *)
Definition try_except {A} (m : M A) (h : exn → M A) : M A :=
  λ st, match m st with
        | (inl e, st') => h e st'
        | r => r
        end.
Definition lift {A} (r : exn + A) : M A := λ st, (r, st).

Definition exists_ (p : path) (st : state) : bool :=
  match p with
  | [] => true
  | _ => bool_decide (is_Some (fs st !! p))
  end.

Definition is_dir (p : path) (st : state) : bool :=
  match p with
  | [] => true
  | _ => match fs st !! p with Some Dir => true | _ => false end
  end.

(** Creating or truncating a file and writing [d] into it: the parent must
    be a directory and the path itself must not be one. *)
Definition write_file (p : path) (d : file_data) : M unit :=
  λ st, if is_dir (removelast p) st && negb (is_dir p st)
        then (inr (), mkState (jobs st) (<[p := File d]> (fs st)) (gen st)
                              (log st ++ [EvWrite p]))
        else (inl (OSError "cannot open file for writing"), st).

(** [p.mkdir(parents=True, exist_ok=True)] for a directory right below the
    root. *)
Definition mkdir (p : path) : M unit :=
  λ st, match fs st !! p with
        | Some Dir => (inr (), st)
        | Some (File _) => (inl (OSError "File exists"), st)
        | None => (inr (), mkState (jobs st) (<[p := Dir]> (fs st)) (gen st) (log st))
        end.

(** [for x in l: ...] collecting the values of the body. *)
Fixpoint forM {A C} (f : A → M C) (l : list A) : M (list C) :=
  match l with
  | [] => ret []
  | a :: l' => bind (f a) (λ c, bind (forM f l') (λ cs, ret (c :: cs)))
  end.

(** [range(n)] *)
Definition range (n : Z) : list nat := seq 0 (Z.to_nat n).

(** [l[i]] for an index that is not negative. *)
Definition getitem {A} (l : list A) (i : nat) : M A :=
  match l !! i with
  | Some a => ret a
  | None => raise (IndexError "index out of bounds")
  end.

End runtime.

Notation "'let!' x := m 'in' k" := (bind m (λ x, k))
  (at level 10, x name, m at level 100, k at level 200).
Notation "m1 ;;; m2" := (bind m1 (λ _, m2))
  (at level 100, m2 at level 200, right associativity).

(** ** app/services/controlnet.py *)
Module controlnet.
Section with_backend.
Context `{B : Backend}.
Import models.

(** [f"result_{idx}.png"] *)
Definition result_name (idx : nat) : string :=
  "result_" +:+ pretty idx +:+ ".png".

(** [cv2.imread] yields [None] for a path that is missing or is no image. *)
Definition _load_image (image_path : path) : M image :=
  λ st, match fs st !! image_path with
        | Some (File (FImage im)) => (inr im, st)
        | _ => (inl (ValueError "Failed to load input image"), st)
        end.

Definition manual_seed (s : Z) : M unit :=
  λ st, match torch_manual_seed s with
        | inr t => (inr (), mkState (jobs st) (fs st) (t, (gen st).2) (log st))
        | inl e => (inl e, st)
        end.

Definition random_seed (s : Z) : M unit :=
  λ st, match np_random_seed s with
        | inr n => (inr (), mkState (jobs st) (fs st) ((gen st).1, n) (log st))
        | inl e => (inl e, st)
        end.

Definition sample (control : image) (params : GenerationParams) : M (list image) :=
  λ st, let '(r, g) := ddim_sample control params (gen st) in
        (r, mkState (jobs st) (fs st) g (log st)).

Definition _generate (input_image : image) (params : GenerationParams)
  : M (list image) :=
  let! detected_map := lift (detect_edges input_image (image_resolution params)
                               (low_threshold params) (high_threshold params)) in
  let! control := lift (stack_control detected_map (num_samples params)) in
  (if decide (seed params ≠ -1)
   then manual_seed (seed params) ;;; random_seed (seed params)
   else ret ()) ;;;
  let! x_samples := sample control params in
  forM (getitem x_samples) (range (num_samples params)).

(** The loop over [enumerate(results)], from index [idx] on. *)
Fixpoint save_results (job_id : string) (idx : nat) (results : list image)
    (result_paths : list string) : M (list string) :=
  match results with
  | [] => ret result_paths
  | result :: rest =>
      write_file [job_id; result_name idx] (FImage result) ;;;
      save_results job_id (S idx) rest (result_paths ++ [result_name idx])
  end.

Definition process_image (job_id : string) (params : GenerationParams)
  : M (list string) :=
  try_except
    (let! input_image := _load_image [job_id; "input.png"] in
     let! results := _generate input_image params in
     save_results job_id 0 results [])
    (λ e, raise e).

End with_backend.
End controlnet.

(** ** app/services/job_manager.py *)
Module job_manager.
Section with_backend.
Context `{B : Backend}.
Import models.

Definition get_job_status (job_id : string) (st : state) : JobStatus :=
  default PENDING (jobs st !! job_id).

(** [self._jobs[job_id] = s] *)
Definition set_status (job_id : string) (s : JobStatus) : M unit :=
  λ st, (inr (), mkState (<[job_id := s]> (jobs st)) (fs st) (gen st)
                         (log st ++ [EvStatus job_id s])).

Definition metadata (params : GenerationParams) (result_paths : list string) : json :=
  JDict [ ("parameters", JDict (model_dump params));
          ("results", JList (JStr <$> result_paths));
          ("status", JStr (JobStatus_value COMPLETED)) ].

Definition _save_job_metadata (job_id : string) (params : GenerationParams)
    (result_paths : list string) : M unit :=
  write_file [job_id; "metadata.json"] (FJson (metadata params result_paths)).

(** The body under [async with self._lock]; the lock itself is in [loop]. *)
Definition process_job (job_id : string) (params : GenerationParams)
  : M (list string) :=
  try_except
    (set_status job_id PROCESSING ;;;
     let! result_paths := controlnet.process_image job_id params in
     _save_job_metadata job_id params result_paths ;;;
     set_status job_id COMPLETED ;;;
     ret result_paths)
    (λ e, set_status job_id FAILED ;;; raise e).

End with_backend.
End job_manager.

(** ** app/api/deps.py *)
Module deps.
Section with_backend.
Context `{B : Backend}.

Definition verify_job_id (job_id : string) : M string :=
  λ st, if negb (exists_ [job_id] st)
        then (inl (HTTPException 404 "Job not found"), st)
        else (inr job_id, st).

End with_backend.
End deps.

(** ** app/api/endpoints/generation.py *)
Module generation.
Section with_backend.
Context `{B : Backend}.
Import models config.

(** [str] of a pair of ints *)
Definition str_size (s : Z * Z) : string :=
  "(" +:+ pretty s.1 +:+ ", " +:+ pretty s.2 +:+ ")".

(** [int(dim * ratio)] *)
Definition scale_dim (ratio : float) (dim : Z) : exn + Z :=
  int_of_float (PrimFloat.mul (float_of_int dim) ratio).

(** The two assignments under [if max(image.size) > settings.MAX_IMAGE_SIZE]:
    [ratio], a true division of two ints, and the tuple of truncated
    products. *)
Definition scaled_size (cfg : Settings) (size : Z * Z) : exn + (Z * Z) :=
  if Z.max size.1 size.2 =? 0 then inl (ZeroDivisionError "division by zero")
  else
    let ratio := PrimFloat.div (float_of_int (MAX_IMAGE_SIZE cfg))
                               (float_of_int (Z.max size.1 size.2)) in
    match scale_dim ratio size.1 with
    | inl e => inl e
    | inr w => match scale_dim ratio size.2 with
               | inl e => inl e
               | inr h => inr (w, h)
               end
    end.

(** The value of the local [new_size] once the [if] has run. *)
Definition new_size (cfg : Settings) (size : Z * Z) : exn + (Z * Z) :=
  if Z.max size.1 size.2 >? MAX_IMAGE_SIZE cfg then scaled_size cfg size
  else inr size.

(** [upload_image]; [uuid] is the value [str(uuid.uuid4())] draws. *)
Definition upload_image (cfg : Settings) (contents : list Byte.byte)
    (uuid : string) : M JobResponse :=
  try_except
    (let! image :=
       try_except (lift (Image_open contents))
         (λ e, raise (HTTPException 400 ("Invalid image file: " +:+ str_exn e))) in
     let original_size := image_size image in
     let! resized :=
       (if Z.max original_size.1 original_size.2 >? MAX_IMAGE_SIZE cfg
        then let! new_size := lift (scaled_size cfg original_size) in
             let! image := lift (Image_resize image new_size) in
             ret (image, new_size)
        else ret (image, original_size)) in
     let image := resized.1 in
     let new_size := resized.2 in
     let job_id := uuid in
     try_except (mkdir [job_id])
       (λ e, raise (HTTPException 500 ("Failed to create job directory: " +:+ str_exn e))) ;;;
     try_except (write_file [job_id; "input.png"] (FImage image))
       (λ e, raise (HTTPException 500 ("Failed to save image: " +:+ str_exn e))) ;;;
     ret (mkJobResponse job_id PENDING
            (Some ("Image uploaded successfully" +:+
                   (if bool_decide (new_size ≠ original_size)
                    then " and resized from " +:+ str_size original_size
                         +:+ " to " +:+ str_size new_size
                    else "")))))
    (λ e, match e with
          | HTTPException _ _ => raise e
          | _ => raise (HTTPException 500 ("Unexpected error during upload: " +:+ str_exn e))
          end).

(** A background task: the arguments [process_job] is to be called with. *)
Definition background_task : Type := string * GenerationParams.

(** [generate_images]: the response and the tasks attached to it. *)
Definition generate_images (params : GenerationParams) (job_id : string)
  : M (JobResponse * list background_task) :=
  let! job_id := deps.verify_job_id job_id in
  try_except
    (ret (mkJobResponse job_id PROCESSING (Some "Generation started"),
          [(job_id, params)]))
    (λ e, raise (HTTPException 500 (str_exn e))).

(** [fnmatch] against the pattern [result_*.png] *)
Definition is_result_png (name : string) : bool :=
  String.prefix "result_" name
  && String.prefix (String.rev ".png") (String.rev name)
  && bool_decide (11 ≤ String.length name)%nat.

(** [[f.name for f in job_dir.glob("result_*.png")]], in the order of the
    map's enumeration (the order of a directory scan is the system's). *)
Definition glob_results (job_id : string) (st : state) : list string :=
  omap (λ kv, match kv.1 with
              | [j; name] =>
                  if bool_decide (j = job_id) && is_result_png name
                  then Some name else None
              | _ => None
              end)
       (map_to_list (fs st)).

Definition get_job_status (job_id : string) : M GenerationResponse :=
  let! job_id := deps.verify_job_id job_id in
  try_except
    (λ st,
       let status := job_manager.get_job_status job_id st in
       if bool_decide (status = COMPLETED)
       then (inr (mkGenerationResponse job_id status None
                    (Some (glob_results job_id st))), st)
       else (inr (mkGenerationResponse job_id status None None), st))
    (λ e, raise (HTTPException 500 (str_exn e))).

Inductive response : Type :=
  | FileResponse (p : path).

Definition get_result_image (image_name : string) (job_id : string) : M response :=
  let! job_id := deps.verify_job_id job_id in
  try_except
    (let image_path := [job_id; image_name] in
     λ st, if negb (exists_ image_path st)
           then raise (HTTPException 404 "Image not found") st
           else ret (FileResponse image_path) st)
    (λ e, raise (HTTPException 500 (str_exn e))).

(** What starlette sends for a [FileResponse]: the content of a regular
    file; anything else is an error while the response is sent. *)
Definition send (r : response) (st : state) : exn + file_data :=
  match r with
  | FileResponse p =>
      match fs st !! p with
      | Some (File d) => inr d
      | Some Dir => inl (RuntimeError "File at path is not a file.")
      | None => inl (RuntimeError "File at path does not exist.")
      end
  end.

End with_backend.
End generation.

(** ** The event loop

    Background tasks are coroutines of one asyncio loop.  Each runs
    [JobManager.process_job]: it waits at [async with self._lock], and once
    inside it sets the status, awaits [process_image], stores the metadata
    and the final status, and leaves the [async with] block.  The loop may
    switch tasks between any two of these stages, which is more than asyncio
    allows, so what holds here holds for every asyncio schedule. *)
Module loop.
Section with_backend.
Context `{B : Backend}.
Variable cfg : config.Settings.
Import models.

Inductive pc : Type :=
  | Waiting                               (* at [async with self._lock] *)
  | Entered                               (* lock held, at the top of [try] *)
  | Calling                               (* inside [await process_image] *)
  | Returned (r : exn + list string)      (* [process_image] is over *)
  | Leaving (r : exn + list string)       (* final status set, lock still held *)
  | Finished (r : exn + list string).

Record task : Type := mkTask {
  t_job : string;
  t_params : GenerationParams;
  t_pc : pc
}.

Record loop_state : Type := mkLoop {
  st : state;
  locked : bool;                          (* [asyncio.Lock._locked] *)
  tasks : list task
}.

(** From the first statement under the lock to the release. *)
Definition in_critical (t : task) : bool :=
  match t_pc t with
  | Entered | Calling | Returned _ | Leaving _ => true
  | Waiting | Finished _ => false
  end.

(** Between the call of the gateway and its return. *)
Definition in_gateway (t : task) : bool :=
  match t_pc t with Calling => true | _ => false end.

(** What remains of the [try] block once [process_image] has given [r],
    with the [except] clause around it. *)
Definition after_gateway (job_id : string) (params : GenerationParams)
    (r : exn + list string) : M (list string) :=
  try_except
    (let! result_paths := lift r in
     job_manager._save_job_metadata job_id params result_paths ;;;
     job_manager.set_status job_id COMPLETED ;;;
     ret result_paths)
    (λ e, job_manager.set_status job_id FAILED ;;; raise e).

(** One stage of one task; a task that cannot move leaves the state as it
    is. *)
Definition advance_task (t : task) (σ : loop_state) : task * state * bool :=
  match t_pc t with
  | Waiting =>
      if locked σ then (t, st σ, true)
      else (mkTask (t_job t) (t_params t) Entered, st σ, true)
  | Entered =>
      let '(_, s) := job_manager.set_status (t_job t) PROCESSING (st σ) in
      (mkTask (t_job t) (t_params t) Calling, s, locked σ)
  | Calling =>
      let '(r, s) := controlnet.process_image (t_job t) (t_params t) (st σ) in
      (mkTask (t_job t) (t_params t) (Returned r), s, locked σ)
  | Returned r =>
      let '(r', s) := after_gateway (t_job t) (t_params t) r (st σ) in
      (mkTask (t_job t) (t_params t) (Leaving r'), s, locked σ)
  | Leaving r =>
      (mkTask (t_job t) (t_params t) (Finished r), st σ, false)
  | Finished _ => (t, st σ, locked σ)
  end.

Definition advance (i : nat) (σ : loop_state) : loop_state :=
  match tasks σ !! i with
  | None => σ
  | Some t =>
      let '(t', s, l) := advance_task t σ in
      mkLoop s l (<[i := t']> (tasks σ))
  end.

(** [background_tasks.add_task(job_manager.process_job, job_id, params)] *)
Definition spawn (jp : generation.background_task) : task :=
  mkTask jp.1 jp.2 Waiting.

(** What the loop does: it serves a request (a generation request attaches
    its background tasks) or it resumes a task.  FastAPI builds the
    [GenerationParams] of a generation request from the body and, when
    pydantic rejects it, answers 422 without calling the handler. *)
Inductive action : Type :=
  | Upload (contents : list Byte.byte) (uuid : string)
  | Generate (params : GenerationParams) (job_id : string)
  | Status (job_id : string)
  | Result (image_name : string) (job_id : string)
  | Resume (i : nat).

Definition perform (a : action) (σ : loop_state) : loop_state :=
  match a with
  | Upload contents uuid =>
      mkLoop (generation.upload_image cfg contents uuid (st σ)).2
             (locked σ) (tasks σ)
  | Generate params job_id =>
      if valid params then
        match generation.generate_images params job_id (st σ) with
        | (inr (_, new), s) => mkLoop s (locked σ) (tasks σ ++ (spawn <$> new))
        | (inl _, s) => mkLoop s (locked σ) (tasks σ)
        end
      else σ
  | Status job_id =>
      mkLoop (generation.get_job_status job_id (st σ)).2 (locked σ) (tasks σ)
  | Result image_name job_id =>
      mkLoop (generation.get_result_image image_name job_id (st σ)).2
             (locked σ) (tasks σ)
  | Resume i => advance i σ
  end.

Definition run (schedule : list action) (σ : loop_state) : loop_state :=
  foldl (λ σ a, perform a σ) σ schedule.

(** The loop before any request: no task, the lock free. *)
Definition start (s : state) : loop_state := mkLoop s false [].

End with_backend.
End loop.

(** ** A small backend to run the definitions on

    An image is its size and one number standing for its pixels.  An upload
    is four bytes of width and height (big endian, two bytes each) and a
    pixel byte.  Sampling draws from the torch generator and fails beyond 50
    steps, as a device that runs out of memory would. *)
Module toy.
Import models.

Definition raster : Type := (Z * Z) * Z.

Definition open_raster (contents : list Byte.byte) : exn + raster :=
  match Z.of_N ∘ Byte.to_N <$> contents with
  | [w1; w0; h1; h0; px] => inr ((256 * w1 + w0, 256 * h1 + h0), px)
  | _ => inl (ValueError "cannot identify image file")
  end.

Definition resize_raster (im : raster) (s : Z * Z) : exn + raster :=
  if (0 <? s.1) && (0 <? s.2) then inr (s, im.2)
  else inl (ValueError "height and width must be > 0").

Definition seed_torch (s : Z) : exn + Z :=
  if (- 2 ^ 63 <=? s) && (s <? 2 ^ 64) then inr s
  else inl (RuntimeError "Overflow when unpacking long").

Definition seed_numpy (s : Z) : exn + Z :=
  if (0 <=? s) && (s <? 2 ^ 32) then inr s
  else inl (ValueError "Seed must be between 0 and 2**32 - 1").

Definition edges (im : raster) (res lo hi : Z) : exn + raster :=
  inr ((res, res), im.2 + lo + hi).

Definition stack (im : raster) (n : Z) : exn + raster :=
  if 0 <? n then inr im
  else inl (RuntimeError "stack expects a non-empty TensorList").

Definition draw (control : raster) (p : GenerationParams) (g : Z * Z)
  : (exn + list raster) * (Z * Z) :=
  if 50 <? ddim_steps p then (inl (RuntimeError "CUDA out of memory"), g)
  else (inr ((λ i : nat, (control.1, control.2 + g.1 + Z.of_nat i))
               <$> seq 0 (Z.to_nat (num_samples p))),
        (g.1 + num_samples p, g.2)).

Lemma resize_raster_size im s im' : resize_raster im s = inr im' → im'.1 = s.
Proof.
  unfold resize_raster. destruct ((0 <? s.1) && (0 <? s.2)); [|discriminate].
  intros [= <-]. reflexivity.
Qed.

#[export] Instance backend : Backend := {|
  image := raster;
  image_size := fst;
  Image_open := open_raster;
  Image_resize := resize_raster;
  Image_resize_size := resize_raster_size;
  torch_state := Z;
  numpy_state := Z;
  torch_manual_seed := seed_torch;
  np_random_seed := seed_numpy;
  detect_edges := edges;
  stack_control := stack;
  ddim_sample := draw
|}.

Definition params (n steps sd : Z) : GenerationParams :=
  {| prompt := "a house"; a_prompt := "good quality";
     n_prompt := "lowres, bad anatomy, worst quality, low quality";
     num_samples := n; image_resolution := 512; ddim_steps := steps;
     strength := float_of_int 1; scale := float_of_int 9; seed := sd;
     eta := float_of_int 0; low_threshold := 50; high_threshold := 100 |}.

(** The server after one upload under the id ["j"]. *)
Definition uploaded : state :=
  {| jobs := ∅;
     fs := <[ ["j"; "input.png"] := File (FImage ((640, 480), 7)) ]>
             (<[ ["j"] := Dir ]> ∅);
     gen := (1, 1);
     log := [] |}.

(** The server after two uploads, under the ids ["j"] and ["k"]. *)
Definition two_uploads : state :=
  {| jobs := ∅;
     fs := <[ ["k"; "input.png"] := File (FImage ((800, 600), 9)) ]>
             (<[ ["k"] := Dir ]> (fs uploaded));
     gen := (1, 1);
     log := [] |}.

(** The same server once a generation of three samples has completed. *)
Definition completed : state :=
  (job_manager.process_job "j" (params 3 20 42) uploaded).2.

End toy.

(** ** Reading a metadata file back

    No source file reads [metadata.json]; these functions are the reader
    against which the record is said to round-trip: the parameters go
    through [models.model_validate], the results are a list of strings and
    the status is a string. *)
Module reader.
Import models.

Definition as_str (j : json) : option string :=
  match j with JStr s => Some s | _ => None end.

Fixpoint as_strs (l : list json) : option (list string) :=
  match l with
  | [] => Some []
  | j :: l' =>
      match as_str j, as_strs l' with
      | Some s, Some ss => Some (s :: ss)
      | _, _ => None
      end
  end.

Definition read_parameters (j : json) : option GenerationParams :=
  match j with
  | JDict d =>
      match dict_get "parameters" d with
      | Some (JDict q) => model_validate q
      | _ => None
      end
  | _ => None
  end.

Definition read_results (j : json) : option (list string) :=
  match j with
  | JDict d =>
      match dict_get "results" d with
      | Some (JList l) => as_strs l
      | _ => None
      end
  | _ => None
  end.

Definition read_status (j : json) : option string :=
  match j with
  | JDict d => dict_get "status" d ≫= as_str
  | _ => None
  end.

End reader.

(** * Properties *)

(** ** What a computation leaves alone

    [keeps R m]: the state after [m], whether it returns or raises, is
    related by [R] to the state before. *)
Section frame.
Context `{B : Backend}.
Import models.

Definition keeps {A} (R : relation state) (m : M A) : Prop :=
  ∀ s, R s (m s).2.

Context (R : relation state) `{!PreOrder R}.

Lemma keeps_ret {A} (a : A) : keeps R (ret a).
Proof. intros s. reflexivity. Qed.

Lemma keeps_raise {A} e : keeps R (raise (A := A) e).
Proof. intros s. reflexivity. Qed.

Lemma keeps_lift {A} (r : exn + A) : keeps R (lift r).
Proof. intros s. reflexivity. Qed.

Lemma keeps_bind {A C} (m : M A) (k : A → M C) :
  keeps R m → (∀ a, keeps R (k a)) → keeps R (bind m k).
Proof.
  intros Hm Hk s. unfold bind. specialize (Hm s).
  destruct (m s) as [[e|a] s']; simpl in *; [done|].
  etrans; [exact Hm|apply Hk].
Qed.

Lemma keeps_try_except {A} (m : M A) (h : exn → M A) :
  keeps R m → (∀ e, keeps R (h e)) → keeps R (try_except m h).
Proof.
  intros Hm Hh s. unfold try_except. specialize (Hm s).
  destruct (m s) as [[e|a] s']; simpl in *; [|done].
  etrans; [exact Hm|apply Hh].
Qed.

Lemma keeps_getitem {A} (l : list A) i : keeps R (getitem l i).
Proof. unfold getitem. destruct (l !! i); [apply keeps_ret|apply keeps_raise]. Qed.

Lemma keeps_forM {A C} (f : A → M C) (l : list A) :
  (∀ a, keeps R (f a)) → keeps R (forM f l).
Proof.
  intros Hf. induction l as [|a l IH]; simpl; [apply keeps_ret|].
  apply keeps_bind; [apply Hf|]. intros c.
  apply keeps_bind; [apply IH|]. intros cs. apply keeps_ret.
Qed.

Lemma keeps_load_image p : keeps R (controlnet._load_image p).
Proof.
  intros s. unfold controlnet._load_image.
  destruct (fs s !! p) as [[|[im|j]]|]; reflexivity.
Qed.

End frame.

(** The relations used below.  Each is a preorder. *)
Section relations.
Context `{B : Backend}.
Import models.

Definition same_jobs : relation state := λ s s', jobs s' = jobs s.
Definition same_fs : relation state := λ s s', fs s' = fs s.
Definition same_at (p : path) : relation state := λ s s', fs s' !! p = fs s !! p.
Definition same_log : relation state := λ s s', log s' = log s.
(** The log is extended by events that satisfy [Q]. *)
Definition logs (Q : event → Prop) : relation state :=
  λ s s', ∃ evs, log s' = log s ++ evs ∧ Forall Q evs.

#[export] Instance same_jobs_po : PreOrder same_jobs.
Proof. split; [by intros ?|]. intros s1 s2 s3 H1 H2. unfold same_jobs in *. congruence. Qed.
#[export] Instance same_fs_po : PreOrder same_fs.
Proof. split; [by intros ?|]. intros s1 s2 s3 H1 H2. unfold same_fs in *. congruence. Qed.
#[export] Instance same_at_po p : PreOrder (same_at p).
Proof. split; [by intros ?|]. intros s1 s2 s3 H1 H2. unfold same_at in *. congruence. Qed.
#[export] Instance same_log_po : PreOrder same_log.
Proof. split; [by intros ?|]. intros s1 s2 s3 H1 H2. unfold same_log in *. congruence. Qed.
#[export] Instance logs_po Q : PreOrder (logs Q).
Proof.
  split.
  - intros s. exists []. by rewrite app_nil_r.
  - intros s1 s2 s3 (e1 & H1 & F1) (e2 & H2 & F2). exists (e1 ++ e2).
    split; [by rewrite H2, H1, app_assoc|by apply Forall_app].
Qed.

End relations.

Section frame_primitives.
Context `{B : Backend}.
Import models.

(** A relation that does not look at the generators. *)
Class GenBlind (R : relation state) : Prop :=
  gen_blind : ∀ s g, R s (mkState (jobs s) (fs s) g (log s)).

#[export] Instance same_jobs_gb : GenBlind same_jobs.
Proof. by intros s g. Qed.
#[export] Instance same_fs_gb : GenBlind same_fs.
Proof. by intros s g. Qed.
#[export] Instance same_at_gb p : GenBlind (same_at p).
Proof. by intros s g. Qed.
#[export] Instance same_log_gb : GenBlind same_log.
Proof. by intros s g. Qed.
#[export] Instance logs_gb Q : GenBlind (logs Q).
Proof. intros s g. exists []. simpl. by rewrite app_nil_r. Qed.

(** What the state becomes when [write_file p d] goes through. *)
Definition wrote (p : path) (d : file_data) (s : state) : state :=
  mkState (jobs s) (<[p := File d]> (fs s)) (gen s) (log s ++ [EvWrite p]).

Lemma write_file_inv p d s r s' :
  write_file p d s = (r, s') →
  (r = inr () ∧ s' = wrote p d s ∧ is_dir (removelast p) s = true
   ∧ is_dir p s = false)
  ∨ (∃ e, r = inl e ∧ s' = s).
Proof.
  unfold write_file.
  destruct (is_dir (removelast p) s) eqn:H1, (is_dir p s) eqn:H2; simpl;
    intros [= <- <-]; eauto 6.
Qed.

Section any_relation.
Context (R : relation state) `{!PreOrder R}.

Lemma keeps_write_file p d :
  (∀ s, is_dir p s = false → R s (wrote p d s)) → keeps R (write_file p d).
Proof.
  intros H s. destruct (write_file p d s) as [r s'] eqn:E.
  apply write_file_inv in E as [(_ & -> & _ & Hp)|(e & _ & ->)]; simpl;
    [by apply H|reflexivity].
Qed.

Lemma keeps_mkdir p :
  (∀ s, fs s !! p = None →
        R s (mkState (jobs s) (<[p := Dir]> (fs s)) (gen s) (log s))) →
  keeps R (mkdir p).
Proof.
  intros H s. unfold mkdir. destruct (fs s !! p) as [[|d]|] eqn:E; simpl;
    [reflexivity..|by apply H].
Qed.

Context `{!GenBlind R}.

Lemma keeps_manual_seed z : keeps R (controlnet.manual_seed z).
Proof.
  intros s. unfold controlnet.manual_seed.
  destruct (torch_manual_seed z); simpl; [reflexivity|apply gen_blind].
Qed.

Lemma keeps_random_seed z : keeps R (controlnet.random_seed z).
Proof.
  intros s. unfold controlnet.random_seed.
  destruct (np_random_seed z); simpl; [reflexivity|apply gen_blind].
Qed.

Lemma keeps_sample c p : keeps R (controlnet.sample c p).
Proof.
  intros s. unfold controlnet.sample.
  destruct (ddim_sample c p (gen s)) as [r g]. simpl. apply gen_blind.
Qed.

Lemma keeps_generate im p : keeps R (controlnet._generate im p).
Proof.
  unfold controlnet._generate.
  apply (keeps_bind R); [apply (keeps_lift R)|]. intros d.
  apply (keeps_bind R); [apply (keeps_lift R)|]. intros c.
  apply (keeps_bind R); [|].
  - case_decide; [|by apply (keeps_ret R)].
    apply (keeps_bind R); [apply keeps_manual_seed|].
    intros _. apply keeps_random_seed.
  - intros _. apply (keeps_bind R); [apply keeps_sample|].
    intros xs. apply (keeps_forM R). intros i. apply (keeps_getitem R).
Qed.

(** [process_image] is related by [R] as soon as writing a result file is. *)
Lemma keeps_save_results job_id idx results acc :
  (∀ k im s, is_dir [job_id; controlnet.result_name k] s = false →
             R s (wrote [job_id; controlnet.result_name k] (FImage im) s)) →
  keeps R (controlnet.save_results job_id idx results acc).
Proof.
  intros H. revert idx acc.
  induction results as [|r rs IH]; intros idx acc; simpl;
    [by apply (keeps_ret R)|].
  apply (keeps_bind R); [apply keeps_write_file; apply H|].
  intros _. apply IH.
Qed.

Lemma keeps_process_image job_id p :
  (∀ k im s, is_dir [job_id; controlnet.result_name k] s = false →
             R s (wrote [job_id; controlnet.result_name k] (FImage im) s)) →
  keeps R (controlnet.process_image job_id p).
Proof.
  intros H. unfold controlnet.process_image.
  apply (keeps_try_except R); [|intros e; by apply (keeps_raise R)].
  apply (keeps_bind R); [by apply (keeps_load_image R)|]. intros im.
  apply (keeps_bind R); [apply keeps_generate|]. intros results.
  by apply keeps_save_results.
Qed.

End any_relation.
End frame_primitives.

(** ** File names *)
Section names.

Lemma list_ascii_of_append s1 s2 :
  list_ascii_of_string (s1 +:+ s2)
  = (list_ascii_of_string s1 ++ list_ascii_of_string s2)%list.
Proof. induction s1 as [|a s1 IH]; simpl; [done|by rewrite IH]. Qed.

Lemma append_inj_r s1 s2 t : s1 +:+ t = s2 +:+ t → s1 = s2.
Proof.
  intros H. apply (f_equal list_ascii_of_string) in H.
  rewrite !list_ascii_of_append in H. apply app_inv_tail in H.
  rewrite <- (string_of_list_ascii_of_string s1),
          <- (string_of_list_ascii_of_string s2). by rewrite H.
Qed.

Lemma result_name_inj i j :
  controlnet.result_name i = controlnet.result_name j → i = j.
Proof.
  unfold controlnet.result_name. intros H.
  apply String.app_inj in H. apply append_inj_r in H.
  by apply pretty_nat_inj in H.
Qed.

Lemma result_name_not_metadata k : controlnet.result_name k ≠ "metadata.json".
Proof. unfold controlnet.result_name. simpl. discriminate. Qed.

End names.

(** ** The gateway: what [process_image] touches *)
Section gateway_frame.
Context `{B : Backend}.
Import models.

Lemma process_image_jobs job_id p :
  keeps same_jobs (controlnet.process_image job_id p).
Proof. apply keeps_process_image; try apply _. by intros k im s _. Qed.

(** Only paths [job_id/result_<k>.png] are written. *)
Lemma process_image_same_at job_id p q :
  (∀ k, q ≠ [job_id; controlnet.result_name k]) →
  keeps (same_at q) (controlnet.process_image job_id p).
Proof.
  intros Hq. apply keeps_process_image; try apply _.
  intros k im s _. unfold same_at, wrote. simpl.
  rewrite lookup_insert_ne; [done|]. intros E. by apply (Hq k).
Qed.

Definition result_write (job_id : string) (ev : event) : Prop :=
  ∃ k, ev = EvWrite [job_id; controlnet.result_name k].

Lemma process_image_logs job_id p :
  keeps (logs (result_write job_id)) (controlnet.process_image job_id p).
Proof.
  apply keeps_process_image; try apply _.
  intros k im s _. exists [EvWrite [job_id; controlnet.result_name k]].
  split; [done|]. constructor; [by exists k|constructor].
Qed.

End gateway_frame.

(** ** Reading a run backwards *)
Section inversion.
Context `{B : Backend}.
Import models.

Lemma bind_inr {A C} (m : M A) (k : A → M C) s c s' :
  bind m k s = (inr c, s') → ∃ a s1, m s = (inr a, s1) ∧ k a s1 = (inr c, s').
Proof.
  unfold bind. destruct (m s) as [[e|a] s1]; [discriminate|]. eauto.
Qed.

Lemma try_except_reraise {A} (m : M A) s : try_except m (λ e, raise e) s = m s.
Proof. unfold try_except, raise. by destruct (m s) as [[e|a] s1]. Qed.

Lemma forM_length {A C} (f : A → M C) (l : list A) s cs s' :
  forM f l s = (inr cs, s') → length cs = length l.
Proof.
  revert s cs s'. induction l as [|a l IH]; intros s cs s'; simpl.
  - unfold ret. by intros [= <- _].
  - intros H. apply bind_inr in H as (c & s1 & _ & H).
    apply bind_inr in H as (cs' & s2 & H & Hr).
    unfold ret in Hr. injection Hr as <- _. simpl.
    f_equal. by eapply IH.
Qed.

(** A generation that returns gives as many images as were asked for. *)
Lemma generate_length im p s results s' :
  controlnet._generate im p s = (inr results, s') →
  length results = Z.to_nat (num_samples p).
Proof.
  unfold controlnet._generate. intros H.
  apply bind_inr in H as (d & s1 & _ & H).
  apply bind_inr in H as (c & s1' & _ & H).
  apply bind_inr in H as (? & s2 & _ & H).
  apply bind_inr in H as (xs & s3 & _ & H).
  apply forM_length in H. unfold range in H. by rewrite H, length_seq.
Qed.

(** The files of a job directory after the loop of [process_image]. *)
Fixpoint stored (job_id : string) (idx : nat) (results : list image)
    (m : gmap path node) : gmap path node :=
  match results with
  | [] => m
  | r :: rs =>
      stored job_id (S idx) rs
             (<[ [job_id; controlnet.result_name idx] := File (FImage r) ]> m)
  end.

Definition result_path (job_id : string) (k : nat) : path :=
  [job_id; controlnet.result_name k].

Lemma stored_other job_id idx results m q :
  (∀ k, idx ≤ k < idx + length results → q ≠ result_path job_id k)%nat →
  stored job_id idx results m !! q = m !! q.
Proof.
  revert idx m. induction results as [|r rs IH]; intros idx m Hq; simpl; [done|].
  rewrite IH.
  - rewrite lookup_insert_ne; [done|]. intros E. apply (Hq idx); [simpl; lia|done].
  - intros k Hk. apply Hq. simpl. lia.
Qed.

Lemma stored_lookup job_id idx results m i im :
  results !! i = Some im →
  stored job_id idx results m !! result_path job_id (idx + i)
  = Some (File (FImage im)).
Proof.
  revert idx m i. induction results as [|r rs IH]; intros idx m i; [done|].
  destruct i as [|i]; simpl.
  - intros [= ->]. rewrite Nat.add_0_r, stored_other.
    + by rewrite lookup_insert_eq.
    + intros k Hk E.
      assert (idx = k) by (apply result_name_inj; unfold result_path in E; congruence).
      lia.
  - intros Hi. replace (idx + S i)%nat with (S idx + i)%nat by lia. by apply IH.
Qed.

Lemma save_results_inr job_id idx results acc s paths s' :
  controlnet.save_results job_id idx results acc s = (inr paths, s') →
  paths = acc ++ (controlnet.result_name <$> seq idx (length results))
  ∧ fs s' = stored job_id idx results (fs s)
  ∧ log s' = log s ++ (EvWrite ∘ result_path job_id <$> seq idx (length results))
  ∧ jobs s' = jobs s ∧ gen s' = gen s.
Proof.
  revert idx acc s. induction results as [|r rs IH]; intros idx acc s; simpl.
  - unfold ret. intros [= <- <-]. by rewrite !app_nil_r.
  - intros H. apply bind_inr in H as ([] & s1 & Hw & H).
    apply write_file_inv in Hw as [(_ & -> & _)|(e & [=] & _)].
    apply IH in H as (-> & -> & -> & -> & ->). simpl.
    by rewrite <- !app_assoc.
Qed.

Lemma load_image_state p s r s' :
  controlnet._load_image p s = (r, s') → s' = s.
Proof.
  unfold controlnet._load_image.
  destruct (fs s !! p) as [[|[im|j]]|]; by intros [= _ <-].
Qed.

(** [process_image] when it returns. *)
Lemma process_image_inr job_id p s paths s' :
  controlnet.process_image job_id p s = (inr paths, s') →
  ∃ results,
    length results = Z.to_nat (num_samples p)
    ∧ paths = controlnet.result_name <$> seq 0 (Z.to_nat (num_samples p))
    ∧ fs s' = stored job_id 0 results (fs s)
    ∧ log s' = log s ++ (EvWrite ∘ result_path job_id
                           <$> seq 0 (Z.to_nat (num_samples p)))
    ∧ jobs s' = jobs s.
Proof.
  unfold controlnet.process_image. rewrite try_except_reraise. intros H.
  apply bind_inr in H as (im & s1 & Hl & H). apply load_image_state in Hl as ->.
  apply bind_inr in H as (results & s2 & Hg & H).
  pose proof (generate_length _ _ _ _ _ Hg) as Hn.
  pose proof (keeps_generate same_fs im p s) as Hfs.
  pose proof (keeps_generate same_log im p s) as Hlog.
  pose proof (keeps_generate same_jobs im p s) as Hjobs.
  rewrite Hg in Hfs, Hlog, Hjobs. unfold same_fs, same_log, same_jobs in *.
  simpl in *. apply save_results_inr in H as (-> & -> & -> & -> & _).
  exists results. rewrite <- Hn, Hfs, Hlog, Hjobs. done.
Qed.

End inversion.

(** ** The coordinator's run, stage by stage *)
Section run_stages.
Context `{B : Backend}.
Import models.

Definition meta_path (job_id : string) : path := [job_id; "metadata.json"].

(** [process_job] is: set the status, call the gateway, and finish as
    [loop.after_gateway] does. *)
Lemma process_job_stages job_id p s :
  job_manager.process_job job_id p s
  = loop.after_gateway job_id p
      (controlnet.process_image job_id p
         (job_manager.set_status job_id PROCESSING s).2).1
      (controlnet.process_image job_id p
         (job_manager.set_status job_id PROCESSING s).2).2.
Proof.
  unfold job_manager.process_job, loop.after_gateway, try_except, bind, lift.
  simpl.
  destruct (controlnet.process_image job_id p _) as [[e|paths] s2]; simpl; done.
Qed.

Lemma after_gateway_inl job_id p e s :
  loop.after_gateway job_id p (inl e) s
  = (inl e, (job_manager.set_status job_id FAILED s).2).
Proof. reflexivity. Qed.

Lemma after_gateway_inr job_id p paths s :
  loop.after_gateway job_id p (inr paths) s
  = match write_file (meta_path job_id)
            (FJson (job_manager.metadata p paths)) s with
    | (inr _, s1) => (inr paths, (job_manager.set_status job_id COMPLETED s1).2)
    | (inl e, s1) => (inl e, (job_manager.set_status job_id FAILED s1).2)
    end.
Proof.
  unfold loop.after_gateway, try_except, bind, lift,
    job_manager._save_job_metadata, meta_path.
  simpl. by destruct (write_file _ _ s) as [[e|[]] s1].
Qed.

(** The status a run ends in. *)
Definition outcome_status {A} (r : exn + A) : JobStatus :=
  match r with inl _ => FAILED | inr _ => COMPLETED end.

(** However the run ends, the job's status is final and tells how. *)
Lemma after_gateway_status job_id p r s r' s' :
  loop.after_gateway job_id p r s = (r', s') →
  jobs s' = <[job_id := outcome_status r']> (jobs s).
Proof.
  destruct r as [e|paths].
  - rewrite after_gateway_inl. by intros [= <- <-].
  - rewrite after_gateway_inr.
    destruct (write_file _ _ s) as [[e|[]] s1] eqn:Hw;
      apply write_file_inv in Hw as [(? & -> & _)|(? & ? & ->)];
      simplify_eq; by intros [= <- <-].
Qed.

Lemma process_job_status job_id p s r s' :
  job_manager.process_job job_id p s = (r, s') →
  job_manager.get_job_status job_id s' = outcome_status r.
Proof.
  rewrite process_job_stages. intros H. apply after_gateway_status in H.
  unfold job_manager.get_job_status. by rewrite H, lookup_insert_eq.
Qed.

(** A run that returns: the whole of its effect. *)
Lemma process_job_inr job_id p s paths s' :
  job_manager.process_job job_id p s = (inr paths, s') →
  ∃ results,
    length results = Z.to_nat (num_samples p)
    ∧ paths = controlnet.result_name <$> seq 0 (Z.to_nat (num_samples p))
    ∧ fs s' = <[meta_path job_id := File (FJson (job_manager.metadata p paths))]>
                (stored job_id 0 results (fs s))
    ∧ log s' = log s ++ [EvStatus job_id PROCESSING]
               ++ (EvWrite ∘ result_path job_id
                     <$> seq 0 (Z.to_nat (num_samples p)))
               ++ [EvWrite (meta_path job_id); EvStatus job_id COMPLETED].
Proof.
  rewrite process_job_stages.
  destruct (controlnet.process_image job_id p _) as [[e|paths'] s2] eqn:Hg; simpl.
  { rewrite after_gateway_inl. discriminate. }
  rewrite after_gateway_inr.
  destruct (write_file _ _ s2) as [[e|[]] s3] eqn:Hw; [discriminate|].
  intros [= <- <-].
  apply write_file_inv in Hw as [(_ & -> & _)|(? & [=] & _)].
  apply process_image_inr in Hg as (results & Hn & -> & Hfs & Hlog & _).
  exists results. simpl in *. rewrite Hfs, Hlog.
  repeat split; [done|]. by rewrite <- !app_assoc.
Qed.

End run_stages.

(** ** The metadata record *)
Section metadata_record.
Import models.

Lemma model_validate_dump p : valid p = true → model_validate (model_dump p) = Some p.
Proof.
  intros Hv. destruct p. unfold model_validate, model_dump. simpl.
  unfold get_str, get_int, get_float. simpl. by rewrite Hv.
Qed.

(** Nothing is lost in the dump, valid or not. *)
Lemma model_dump_inj p q : model_dump p = model_dump q → p = q.
Proof. destruct p, q. unfold model_dump. simpl. intros H. by simplify_eq. Qed.

Lemma read_strings (l : list string) : reader.as_strs (JStr <$> l) = Some l.
Proof.
  induction l as [|x l IH]; [done|].
  rewrite fmap_cons. cbn [reader.as_strs reader.as_str]. by rewrite IH.
Qed.

Lemma read_parameters_metadata p paths :
  valid p = true →
  reader.read_parameters (job_manager.metadata p paths) = Some p.
Proof. intros Hv. simpl. by apply model_validate_dump. Qed.

Lemma read_results_metadata p paths :
  reader.read_results (job_manager.metadata p paths) = Some paths.
Proof. simpl. apply read_strings. Qed.

Lemma read_status_metadata p paths :
  reader.read_status (job_manager.metadata p paths) = Some "completed".
Proof. reflexivity. Qed.

End metadata_record.

(** * The claims *)

(** ** The run operation: results, metadata, status *)
Section run_claims.
Context `{B : Backend}.
Import models.

Lemma result_path_not_meta job_id k : result_path job_id k ≠ meta_path job_id.
Proof.
  unfold result_path, meta_path. intros E.
  apply (result_name_not_metadata k). congruence.
Qed.

Lemma result_path_inj job_id i j :
  result_path job_id i = result_path job_id j → i = j.
Proof. unfold result_path. intros E. apply result_name_inj. congruence. Qed.

(** C2, as amended.  A run with [num_samples = n] that returns has written
    exactly the [n] files [result_0.png] ... [result_<n-1>.png], in this
    order, each holding an image, then the metadata record, and the job's
    status is Completed.  Result files of index [n] and above are left as
    they were: when there was none before the run, the result files of the
    job afterwards are exactly these [n]. *)
Theorem run_stores_results (job_id : string) (p : GenerationParams) (n : nat)
    (s : state) (paths : list string) (s' : state) :
  num_samples p = Z.of_nat n →
  job_manager.process_job job_id p s = (inr paths, s') →
  paths = controlnet.result_name <$> seq 0 n
  ∧ log s' = log s ++ [EvStatus job_id PROCESSING]
             ++ (EvWrite ∘ result_path job_id <$> seq 0 n)
             ++ [EvWrite (meta_path job_id); EvStatus job_id COMPLETED]
  ∧ (∀ k, (k < n)%nat →
          ∃ im, fs s' !! result_path job_id k = Some (File (FImage im)))
  ∧ (∀ k, (n ≤ k)%nat →
          fs s' !! result_path job_id k = fs s !! result_path job_id k)
  ∧ ((∀ k, (n ≤ k)%nat → fs s !! result_path job_id k = None) →
     ∀ k, is_Some (fs s' !! result_path job_id k) ↔ (k < n)%nat)
  ∧ fs s' !! meta_path job_id
    = Some (File (FJson (job_manager.metadata p paths)))
  ∧ job_manager.get_job_status job_id s' = COMPLETED.
Proof.
  intros Hn Hrun.
  pose proof (process_job_status _ _ _ _ _ Hrun) as Hst.
  apply process_job_inr in Hrun as (results & Hlen & -> & Hfs & Hlog).
  rewrite Hn, Nat2Z.id in *.
  assert (Hlow : ∀ k, (k < n)%nat →
            ∃ im, fs s' !! result_path job_id k = Some (File (FImage im))).
  { intros k Hk. destruct (lookup_lt_is_Some_2 results k) as [im Him]; [lia|].
    exists im. rewrite Hfs, lookup_insert_ne by (symmetry; apply result_path_not_meta).
    by apply (stored_lookup job_id 0 results (fs s) k im). }
  assert (Hhigh : ∀ k, (n ≤ k)%nat →
            fs s' !! result_path job_id k = fs s !! result_path job_id k).
  { intros k Hk. rewrite Hfs, lookup_insert_ne by (symmetry; apply result_path_not_meta).
    apply stored_other. intros k' Hk' E. apply result_path_inj in E. lia. }
  split; [done|]. split; [done|]. split; [done|]. split; [done|].
  split; [|split; [by rewrite Hfs, lookup_insert_eq|done]].
  intros Hnone k. split.
  - intros Hk. destruct (decide (k < n)%nat); [done|].
    rewrite Hhigh, Hnone in Hk by lia. by destruct Hk.
  - intros Hk. destruct (Hlow k Hk) as [im ->]. eauto.
Qed.

(** C3.  When the gateway raises during a run, the run raises the same
    exception, the job's status is Failed, and the run has written no
    metadata file: the path is as it was and the run logs no write to it. *)
Theorem gateway_failure_marks_failed (job_id : string) (p : GenerationParams)
    (s : state) (e : exn) (s1 : state) :
  controlnet.process_image job_id p
    (job_manager.set_status job_id PROCESSING s).2 = (inl e, s1) →
  ∃ s', job_manager.process_job job_id p s = (inl e, s')
        ∧ job_manager.get_job_status job_id s' = FAILED
        ∧ fs s' !! meta_path job_id = fs s !! meta_path job_id
        ∧ ∃ evs, log s' = log s ++ evs ∧ EvWrite (meta_path job_id) ∉ evs.
Proof.
  intros Hg. eexists. split.
  { rewrite process_job_stages, Hg. simpl. apply after_gateway_inl. }
  pose proof (process_image_same_at job_id p (meta_path job_id)
                (λ k, not_eq_sym (result_path_not_meta job_id k))
                (job_manager.set_status job_id PROCESSING s).2) as Hat.
  pose proof (process_image_logs job_id p
                (job_manager.set_status job_id PROCESSING s).2)
    as (evs & Hlog & Hevs).
  rewrite Hg in Hat, Hlog. unfold same_at in Hat. simpl in *.
  split; [|split].
  - unfold job_manager.get_job_status. simpl. by rewrite lookup_insert_eq.
  - done.
  - exists ([EvStatus job_id PROCESSING] ++ evs ++ [EvStatus job_id FAILED]).
    split; [by rewrite Hlog, <- !app_assoc|].
    rewrite !elem_of_app, !list_elem_of_singleton, Forall_forall in *.
    intros [E|[E|E]]; [discriminate| |discriminate].
    destruct (Hevs _ E) as [k Hk]. injection Hk as Hk.
    by apply (result_name_not_metadata k).
Qed.

(** The metadata file a run leaves is a JSON object from which the
    parameters passed to the run, the names of the result files the run
    wrote, in the order it wrote them, and the string of the job's final
    status are read back. *)
Lemma run_leaves_metadata (job_id : string) (p : GenerationParams)
    (s : state) (paths : list string) (s' : state) :
  valid p = true →
  job_manager.process_job job_id p s = (inr paths, s') →
  ∃ j, fs s' !! meta_path job_id = Some (File (FJson j))
       ∧ reader.read_parameters j = Some p
       ∧ reader.read_results j = Some paths
       ∧ log s' = log s ++ [EvStatus job_id PROCESSING]
                  ++ ((λ name, EvWrite [job_id; name]) <$> paths)
                  ++ [EvWrite (meta_path job_id); EvStatus job_id COMPLETED]
       ∧ reader.read_status j
         = Some (JobStatus_value (job_manager.get_job_status job_id s')).
Proof.
  intros Hv Hrun.
  pose proof (process_job_status _ _ _ _ _ Hrun) as Hst.
  apply process_job_inr in Hrun as (results & _ & Hpaths & Hfs & Hlog).
  exists (job_manager.metadata p paths).
  split; [by rewrite Hfs, lookup_insert_eq|].
  split; [by apply read_parameters_metadata|].
  split; [apply read_results_metadata|].
  split; [|by rewrite Hst].
  rewrite Hlog, Hpaths. do 2 f_equal. by rewrite <- list_fmap_compose.
Qed.

End run_claims.

(** Evaluating the left-hand side of an equation on the small backend (the
    state itself is never normalised, only what is read from it). *)
Ltac evaluate :=
  match goal with
  | |- ?l = _ => let v := eval vm_compute in l in change l with v
  end;
  reflexivity.

(** ** The run claims on the small backend *)
Section run_examples.
Import models.

(** A result is its outcome paired with its state. *)
Lemma outcome_and_state {A S} (x : A * S) (a : A) : x.1 = a → x = (a, x.2).
Proof. intros <-. by destruct x. Qed.

(** A run for two samples on the uploaded job. *)
Lemma run_stores_results_witness :
  job_manager.process_job "j" (toy.params 2 20 42) toy.uploaded
  = (inr ["result_0.png"; "result_1.png"],
     (job_manager.process_job "j" (toy.params 2 20 42) toy.uploaded).2)
  ∧ job_manager.get_job_status "j"
      (job_manager.process_job "j" (toy.params 2 20 42) toy.uploaded).2
    = COMPLETED.
Proof.
  assert (job_manager.process_job "j" (toy.params 2 20 42) toy.uploaded
          = (inr ["result_0.png"; "result_1.png"],
             (job_manager.process_job "j" (toy.params 2 20 42) toy.uploaded).2))
    as Hrun by (apply outcome_and_state; evaluate).
  split; [exact Hrun|].
  apply (run_stores_results "j" (toy.params 2 20 42) 2 toy.uploaded
           ["result_0.png"; "result_1.png"] _ eq_refl Hrun).
Defined.

(** C2 as stated fails on a job that is run again: after three samples, a
    run for two returns, and [result_2.png] of the earlier run is still in
    the job's directory beside the two files just written. *)
Lemma rerun_keeps_stale_results :
  num_samples (toy.params 2 20 42) = 2
  ∧ (job_manager.process_job "j" (toy.params 2 20 42) toy.completed).1
    = inr ["result_0.png"; "result_1.png"]
  ∧ fs (job_manager.process_job "j" (toy.params 2 20 42) toy.completed).2
      !! ["j"; "result_2.png"]
    = Some (File (@FImage toy.backend ((512, 512), 201)))
  ∧ generation.glob_results "j"
      (job_manager.process_job "j" (toy.params 2 20 42) toy.completed).2
    ≡ₚ ["result_0.png"; "result_1.png"; "result_2.png"].
Proof.
  split; [reflexivity|]. split; [evaluate|]. split; [evaluate|].
  assert (generation.glob_results "j"
            (job_manager.process_job "j" (toy.params 2 20 42) toy.completed).2
          = ["result_2.png"; "result_1.png"; "result_0.png"]) as ->
    by evaluate.
  symmetry. apply (Permutation_rev ["result_0.png"; "result_1.png"; "result_2.png"]).
Qed.

(** A sampler that fails (60 steps) on the uploaded job. *)
Lemma gateway_failure_witness :
  ∃ s', job_manager.process_job "j" (toy.params 1 60 42) toy.uploaded
        = (inl (RuntimeError "CUDA out of memory"), s')
        ∧ job_manager.get_job_status "j" s' = FAILED
        ∧ fs s' !! meta_path "j" = fs toy.uploaded !! meta_path "j"
        ∧ ∃ evs, log s' = log toy.uploaded ++ evs
                 ∧ EvWrite (meta_path "j") ∉ evs.
Proof.
  apply (gateway_failure_marks_failed "j" (toy.params 1 60 42) toy.uploaded
           (RuntimeError "CUDA out of memory")
           (controlnet.process_image "j" (toy.params 1 60 42)
              (job_manager.set_status "j" PROCESSING toy.uploaded).2).2).
  apply outcome_and_state. evaluate.
Defined.

Lemma run_leaves_metadata_example :
  ∃ j, fs (job_manager.process_job "j" (toy.params 2 20 42) toy.uploaded).2
         !! meta_path "j" = Some (File (FJson j))
       ∧ reader.read_parameters j = Some (toy.params 2 20 42)
       ∧ reader.read_results j = Some ["result_0.png"; "result_1.png"]
       ∧ log (job_manager.process_job "j" (toy.params 2 20 42) toy.uploaded).2
         = log toy.uploaded ++ [EvStatus "j" PROCESSING]
           ++ ((λ name, EvWrite ["j"; name]) <$> ["result_0.png"; "result_1.png"])
           ++ [EvWrite (meta_path "j"); EvStatus "j" COMPLETED]
       ∧ reader.read_status j
         = Some (JobStatus_value
                   (job_manager.get_job_status "j"
                      (job_manager.process_job "j" (toy.params 2 20 42)
                         toy.uploaded).2)).
Proof.
  apply (run_leaves_metadata "j" (toy.params 2 20 42) toy.uploaded
           ["result_0.png"; "result_1.png"]).
  - evaluate.
  - apply outcome_and_state. evaluate.
Qed.

End run_examples.

(** ** The endpoints *)
Section endpoint_claims.
Context `{B : Backend}.
Import models.


Lemma verify_job_id_present job_id s :
  is_Some (fs s !! [job_id]) → deps.verify_job_id job_id s = (inr job_id, s).
Proof.
  intros H. unfold deps.verify_job_id, exists_.
  by rewrite bool_decide_eq_true_2.
Qed.




Lemma str_not_found :
  str_exn (HTTPException 404 "Image not found") = "404: Image not found".
Proof. vm_compute. reflexivity. Qed.

(** Any file of an existing job directory is served under its name. *)
Lemma existing_file_is_served image_name job_id s d :
  is_Some (fs s !! [job_id]) →
  fs s !! [job_id; image_name] = Some (File d) →
  generation.get_result_image image_name job_id s
  = (inr (generation.FileResponse [job_id; image_name]), s)
  ∧ generation.send (generation.FileResponse [job_id; image_name]) s = inr d.
Proof.
  intros Hj Hf. unfold generation.get_result_image, bind, try_except.
  rewrite verify_job_id_present by done. unfold exists_.
  rewrite bool_decide_eq_true_2 by (rewrite Hf; eauto). simpl.
  by rewrite Hf.
Qed.

(** C10, where the code departs from it.  For a job directory that exists
    and a name that is no path in it, the handler's own 404 is caught by
    its [except Exception] clause and the client gets a 500. *)
Theorem missing_result_is_a_server_error (image_name job_id : string) (s : state) :
  is_Some (fs s !! [job_id]) →
  fs s !! [job_id; image_name] = None →
  generation.get_result_image image_name job_id s
  = (inl (HTTPException 500 "404: Image not found"), s).
Proof.
  intros Hj Hf. unfold generation.get_result_image, bind, try_except.
  rewrite verify_job_id_present by done. unfold exists_.
  rewrite bool_decide_eq_false_2 by (rewrite Hf; by intros [? [=]]).
  cbn [negb]. unfold raise. by rewrite str_not_found.
Qed.

End endpoint_claims.

(** ** The gateway's generation and the seed *)
Section seed_claims.
Context `{B : Backend}.
Import models.

(** Picking the samples out of the batch neither reads nor changes the
    state. *)
Lemma forM_getitem_pure (xs : list image) (l : list nat) :
  ∃ r, ∀ s, forM (getitem xs) l s = (r, s).
Proof.
  induction l as [|i l [r IH]]; simpl.
  - by exists (inr []).
  - unfold bind, getitem. destruct (xs !! i) as [x|].
    + destruct r as [e|cs].
      * exists (inl e). intros s. unfold ret at 1. by rewrite IH.
      * exists (inr (x :: cs)). intros s. unfold ret at 1. by rewrite IH.
    + by exists (inl (IndexError "index out of bounds")).
Qed.

(** The generation without the seeding statement. *)
Definition generate_unseeded (input_image : image) (params : GenerationParams)
  : M (list image) :=
  let! detected_map := lift (detect_edges input_image (image_resolution params)
                               (low_threshold params) (high_threshold params)) in
  let! control := lift (stack_control detected_map (num_samples params)) in
  let! x_samples := controlnet.sample control params in
  forM (getitem x_samples) (range (num_samples params)).

(** C9.  With a seed other than -1 the outcome of [_generate] (the images,
    or the exception) is the same from any two states, whatever the
    generators held: both are seeded from [params.seed] before sampling.
    With the seed -1 nothing is seeded: the generation samples from the
    generators as it finds them. *)
Theorem generate_is_seeded (input_image : image) (p : GenerationParams) :
  (seed p ≠ -1 →
   ∀ s1 s2,
     (controlnet._generate input_image p s1).1
     = (controlnet._generate input_image p s2).1)
  ∧ (seed p = -1 →
     ∀ s, controlnet._generate input_image p s
          = generate_unseeded input_image p s).
Proof.
  split.
  - intros Hseed s1 s2.
    unfold controlnet._generate, bind, lift.
    destruct (detect_edges _ _ _ _) as [e|d]; [done|].
    destruct (stack_control _ _) as [e|c]; [done|].
    rewrite decide_True by done.
    unfold controlnet.manual_seed, controlnet.random_seed, controlnet.sample.
    destruct (torch_manual_seed (seed p)) as [e|t]; [done|].
    destruct (np_random_seed (seed p)) as [e|n]; [done|]. simpl.
    destruct (ddim_sample c p (t, n)) as [[e|xs] g]; [done|].
    destruct (forM_getitem_pure xs (range (num_samples p))) as [r Hr].
    by rewrite !Hr.
  - intros Hseed s. unfold controlnet._generate, generate_unseeded, bind, lift.
    destruct (detect_edges _ _ _ _) as [e|d]; [done|].
    destruct (stack_control _ _) as [e|c]; [done|].
    rewrite decide_False by (intros H; by apply H). done.
Qed.

End seed_claims.

(** ** Uploads and the size bound *)
Section upload_claims.
Context `{B : Backend}.
Import models config.






End upload_claims.

(** ** The endpoint, seed and upload claims on the small backend *)
Section endpoint_examples.
Import models.

(** The uploaded job has no result yet: asking for one gives a 500. *)
Lemma missing_result_witness :
  generation.get_result_image "result_0.png" "j" toy.uploaded
  = (inl (HTTPException 500 "404: Image not found"), toy.uploaded).
Proof.
  apply (missing_result_is_a_server_error "result_0.png" "j" toy.uploaded).
  - assert (fs toy.uploaded !! ["j"] = Some Dir) as -> by evaluate. eauto.
  - evaluate.
Defined.

(** The input image and the metadata record are served like any result. *)
Lemma input_and_metadata_are_served :
  (generation.get_result_image "input.png" "j" toy.completed).1
  = inr (generation.FileResponse ["j"; "input.png"])
  ∧ generation.send (generation.FileResponse ["j"; "input.png"]) toy.completed
    = inr (@FImage toy.backend ((640, 480), 7))
  ∧ (generation.get_result_image "metadata.json" "j" toy.completed).1
    = inr (generation.FileResponse ["j"; "metadata.json"])
  ∧ generation.send (generation.FileResponse ["j"; "metadata.json"]) toy.completed
    = inr (@FJson toy.backend
             (job_manager.metadata (toy.params 3 20 42)
                ["result_0.png"; "result_1.png"; "result_2.png"])).
Proof. repeat split; evaluate. Qed.

(** Two generations in a row: with the seed 42 the second gives what the
    first gave; with the seed -1 the generator has moved on and the images
    differ. *)
Lemma generate_is_seeded_witness :
  (controlnet._generate (B := toy.backend) ((640, 480), 7) (toy.params 1 20 42)
     (controlnet._generate (B := toy.backend) ((640, 480), 7)
        (toy.params 1 20 42) toy.uploaded).2).1
  = (controlnet._generate (B := toy.backend) ((640, 480), 7)
       (toy.params 1 20 42) toy.uploaded).1
  ∧ (controlnet._generate (B := toy.backend) ((640, 480), 7)
       (toy.params 1 20 (-1)) toy.uploaded).1
    = inr [((512, 512), 158)]
  ∧ (controlnet._generate (B := toy.backend) ((640, 480), 7) (toy.params 1 20 (-1))
       (controlnet._generate (B := toy.backend) ((640, 480), 7)
          (toy.params 1 20 (-1)) toy.uploaded).2).1
    = inr [((512, 512), 159)].
Proof.
  split; [|split; evaluate].
  apply (proj1 (generate_is_seeded (B := toy.backend) ((640, 480), 7)
                  (toy.params 1 20 42))).
  discriminate.
Defined.


(** The scenario of the specification: 3000 x 2000 is stored 2048 x 1365. *)
Lemma upload_3000_is_stored_2048_wide :
  fs (generation.upload_image config.settings
        [Byte.x0b; Byte.xb8; Byte.x07; Byte.xd0; Byte.x01] "u" toy.uploaded).2
    !! ["u"; "input.png"]
  = Some (File (@FImage toy.backend ((2048, 1365), 1))).
Proof. evaluate. Qed.

End endpoint_examples.

(** ** The event loop: what one action does *)
Section loop_steps.
Context `{B : Backend}.
Variable cfg : config.Settings.
Import models loop.

(** The moves of a task, with what each does to the lock and the state. *)
Inductive stage (t t' : task) (σ σ' : loop_state) : Prop :=
  | Acquire :
      t_pc t = Waiting → locked σ = false →
      t_pc t' = Entered → locked σ' = true → st σ' = st σ →
      stage t t' σ σ'
  | Begin :
      t_pc t = Entered → t_pc t' = Calling → locked σ' = locked σ →
      st σ' = (job_manager.set_status (t_job t) PROCESSING (st σ)).2 →
      stage t t' σ σ'
  | Call :
      t_pc t = Calling →
      t_pc t' = Returned
                  (controlnet.process_image (t_job t) (t_params t) (st σ)).1 →
      locked σ' = locked σ →
      st σ' = (controlnet.process_image (t_job t) (t_params t) (st σ)).2 →
      stage t t' σ σ'
  | Finish r :
      t_pc t = Returned r →
      t_pc t' = Leaving (after_gateway (t_job t) (t_params t) r (st σ)).1 →
      locked σ' = locked σ →
      st σ' = (after_gateway (t_job t) (t_params t) r (st σ)).2 →
      stage t t' σ σ'
  | Release r :
      t_pc t = Leaving r → t_pc t' = Finished r →
      locked σ' = false → st σ' = st σ →
      stage t t' σ σ'.

Lemma advance_effect i σ :
  advance i σ = σ
  ∨ ∃ t t', tasks σ !! i = Some t
            ∧ tasks (advance i σ) = <[i := t']> (tasks σ)
            ∧ t_job t' = t_job t ∧ t_params t' = t_params t
            ∧ stage t t' σ (advance i σ).
Proof.
  unfold advance. destruct (tasks σ !! i) as [t|] eqn:Hi; [|by left].
  assert (Hid : mkLoop (st σ) (locked σ) (<[i := t]> (tasks σ)) = σ).
  { rewrite list_insert_id by done. by destruct σ. }
  unfold advance_task. destruct (t_pc t) as [| | |r|r|r] eqn:Hpc.
  - destruct (locked σ) eqn:Hl; simpl.
    + by left.
    + right. eexists t, _. repeat split; try done. by eapply Acquire.
  - right. eexists t, _. simpl. repeat split; try done. by eapply Begin.
  - right. destruct (controlnet.process_image _ _ _) as [r s] eqn:E.
    eexists t, _. simpl. repeat split; try done.
    eapply Call; simpl; by rewrite ?E.
  - right. destruct (after_gateway _ _ _ _) as [r' s] eqn:E.
    eexists t, _. simpl. repeat split; try done.
    eapply Finish; simpl; by rewrite ?E.
  - right. eexists t, _. simpl. repeat split; try done. by eapply Release.
  - by left.
Qed.

(** Resuming the task that was moved last. *)
Lemma advance_moved i t0 s lk (l : list task) :
  (i < length l)%nat →
  advance i (mkLoop s lk (<[i := t0]> l))
  = mkLoop (advance_task t0 (mkLoop s lk (<[i := t0]> l))).1.2
           (advance_task t0 (mkLoop s lk (<[i := t0]> l))).2
           (<[i := (advance_task t0 (mkLoop s lk (<[i := t0]> l))).1.1]> l).
Proof.
  intros Hi. unfold advance. simpl. rewrite list_lookup_insert_eq by done.
  destruct (advance_task t0 _) as [[t' s'] l']. simpl.
  by rewrite list_insert_insert_eq.
Qed.

(** A task that is resumed five times with the lock free does what
    [process_job] does. *)
Lemma five_stages_are_process_job i t σ :
  tasks σ !! i = Some t → t_pc t = Waiting → locked σ = false →
  advance i (advance i (advance i (advance i (advance i σ))))
  = mkLoop (job_manager.process_job (t_job t) (t_params t) (st σ)).2
           false
           (<[i := mkTask (t_job t) (t_params t)
                     (Finished (job_manager.process_job (t_job t) (t_params t)
                                  (st σ)).1)]> (tasks σ)).
Proof.
  intros Hi Hpc Hl. pose proof (lookup_lt_Some _ _ _ Hi) as Hlen.
  rewrite process_job_stages.
  assert (advance i σ
          = mkLoop (st σ) true
                   (<[i := mkTask (t_job t) (t_params t) Entered]> (tasks σ)))
    as ->.
  { unfold advance. rewrite Hi. unfold advance_task. by rewrite Hpc, Hl. }
  rewrite advance_moved by done. unfold advance_task at 1 2 3. simpl.
  rewrite advance_moved by done. unfold advance_task at 1 2 3. simpl.
  destruct (controlnet.process_image _ _ _) as [r s1]. simpl.
  rewrite advance_moved by done. unfold advance_task at 1 2 3. simpl.
  destruct (after_gateway _ _ _ _) as [r' s2]. simpl.
  rewrite advance_moved by done. done.
Qed.

(** The endpoints other than the upload leave the state as it is. *)
Lemma generate_images_state p job_id s :
  (generation.generate_images p job_id s).2 = s.
Proof.
  unfold generation.generate_images, bind, deps.verify_job_id.
  by destruct (negb (exists_ [job_id] s)).
Qed.

Lemma get_job_status_state job_id s :
  (generation.get_job_status job_id s).2 = s.
Proof.
  unfold generation.get_job_status, bind, deps.verify_job_id, try_except.
  destruct (negb (exists_ [job_id] s)); [done|]. by case_bool_decide.
Qed.

Lemma get_result_image_state image_name job_id s :
  (generation.get_result_image image_name job_id s).2 = s.
Proof.
  unfold generation.get_result_image, bind, deps.verify_job_id, try_except.
  destruct (negb (exists_ [job_id] s)); [done|].
  by destruct (negb (exists_ [job_id; image_name] s)).
Qed.

(** The tasks a generation request attaches wait, and are for a job whose
    directory exists. *)
Lemma generate_images_tasks p job_id s r new s' :
  generation.generate_images p job_id s = (inr (r, new), s') →
  new = [(job_id, p)] ∧ is_Some (fs s !! [job_id]).
Proof.
  unfold generation.generate_images, bind, deps.verify_job_id, exists_.
  case_bool_decide; simpl; [|discriminate]. by intros [= <- <- <-].
Qed.

(** An upload goes through [mkdir] and [write_file] and nothing else. *)
Lemma keeps_upload_image (R : relation state) `{!PreOrder R} contents uuid :
  (∀ s, fs s !! [uuid] = None →
        R s (mkState (jobs s) (<[ [uuid] := Dir ]> (fs s)) (gen s) (log s))) →
  (∀ im s, is_dir [uuid; "input.png"] s = false →
           R s (wrote [uuid; "input.png"] (FImage im) s)) →
  keeps R (generation.upload_image cfg contents uuid).
Proof.
  intros Hmk Hw. unfold generation.upload_image.
  apply (keeps_try_except R).
  2:{ intros e. destruct e; apply (keeps_raise R). }
  apply (keeps_bind R).
  { apply (keeps_try_except R); [apply (keeps_lift R)|].
    intros e. apply (keeps_raise R). }
  intros im. apply (keeps_bind R).
  { destruct (_ >? _).
    - apply (keeps_bind R); [apply (keeps_lift R)|]. intros ns.
      apply (keeps_bind R); [apply (keeps_lift R)|]. intros im'.
      apply (keeps_ret R).
    - apply (keeps_ret R). }
  intros resized. apply (keeps_bind R).
  { apply (keeps_try_except R); [by apply keeps_mkdir|].
    intros e. apply (keeps_raise R). }
  intros _. apply (keeps_bind R).
  { apply (keeps_try_except R); [apply keeps_write_file; [done|apply Hw]|].
    intros e. apply (keeps_raise R). }
  intros _. apply (keeps_ret R).
Qed.

Lemma upload_image_jobs contents uuid :
  keeps same_jobs (generation.upload_image cfg contents uuid).
Proof. apply keeps_upload_image; [apply _|done|done]. Qed.

(** A request keeps the lock and the statuses, and only adds waiting
    tasks, with parameters that are valid. *)
Lemma request_effect a σ :
  (∀ i, a ≠ Resume i) →
  locked (perform cfg a σ) = locked σ
  ∧ jobs (st (perform cfg a σ)) = jobs (st σ)
  ∧ ∃ new, tasks (perform cfg a σ) = tasks σ ++ new
           ∧ Forall (λ t, t_pc t = Waiting ∧ valid (t_params t) = true) new.
Proof.
  intros Ha. destruct a as [contents uuid|p job_id|job_id|name job_id|i];
    simpl.
  - split; [done|]. split; [apply upload_image_jobs|].
    exists []. by rewrite app_nil_r.
  - destruct (valid p) eqn:Hv.
    2:{ split; [done|]. split; [done|]. exists []. by rewrite app_nil_r. }
    destruct (generation.generate_images p job_id (st σ))
      as [[e|[r new]] s] eqn:Hg;
      pose proof (generate_images_state p job_id (st σ)) as Hs;
      rewrite Hg in Hs; simpl in *; subst s.
    + split; [done|]. split; [done|]. exists []. by rewrite app_nil_r.
    + apply generate_images_tasks in Hg as [-> _].
      split; [done|]. split; [done|]. exists [spawn (job_id, p)].
      split; [done|]. by repeat constructor.
  - rewrite get_job_status_state. split; [done|]. split; [done|].
    exists []. by rewrite app_nil_r.
  - rewrite get_result_image_state. split; [done|]. split; [done|].
    exists []. by rewrite app_nil_r.
  - by destruct (Ha i).
Qed.

(** What holds at the start and is kept by every action holds after every
    schedule. *)
Lemma run_invariant (P : loop_state → Prop) :
  (∀ σ a, P σ → P (perform cfg a σ)) →
  ∀ schedule σ, P σ → P (run cfg schedule σ).
Proof.
  intros Hstep schedule. induction schedule as [|a schedule IH]; intros σ Hσ;
    [done|].
  simpl. apply IH, Hstep, Hσ.
Qed.

End loop_steps.

(** ** The event loop: invariants *)
Section loop_invariants.
Context `{B : Backend}.
Variable cfg : config.Settings.
Import models loop.

(** The gateway call and what follows it up to the final status. *)
Definition in_call (t : task) : bool :=
  match t_pc t with Calling | Returned _ => true | _ => false end.

(** At most one task is in its critical section, and then the lock is
    held. *)
Definition exclusive (σ : loop_state) : Prop :=
  (∀ i j ti tj, tasks σ !! i = Some ti → tasks σ !! j = Some tj →
                in_critical ti = true → in_critical tj = true → i = j)
  ∧ (∀ i t, tasks σ !! i = Some t → in_critical t = true → locked σ = true).


(** Every job with a recorded status has a task. *)
Definition accounted (σ : loop_state) : Prop :=
  ∀ job_id, is_Some (jobs (st σ) !! job_id) →
            ∃ i t, tasks σ !! i = Some t ∧ t_job t = job_id.


Lemma in_gateway_critical t : in_gateway t = true → in_critical t = true.
Proof. unfold in_gateway, in_critical. by destruct (t_pc t). Qed.

Lemma lookup_added (l new : list task) i t :
  Forall (λ t, t_pc t = Waiting ∧ valid (t_params t) = true) new →
  (l ++ new) !! i = Some t → in_critical t = true → l !! i = Some t.
Proof.
  intros Hnew Hi Hc. apply lookup_app_Some in Hi as [Hi|[_ Hi]]; [done|].
  rewrite Forall_lookup in Hnew. apply Hnew in Hi as [Hi _].
  unfold in_critical in Hc. by rewrite Hi in Hc.
Qed.

Lemma lookup_moved (l : list task) i j t t' x :
  l !! i = Some t → <[i := t']> l !! j = Some x →
  (j = i ∧ x = t') ∨ (j ≠ i ∧ l !! j = Some x).
Proof.
  intros Hi Hj. apply list_lookup_insert_Some in Hj as [(-> & -> & _)|[? ?]];
    [by left|right; by split].
Qed.

(** How a move changes being in the critical section. *)
Lemma stage_critical t t' σ σ' :
  stage t t' σ σ' →
  (in_critical t = false ∧ in_critical t' = true
   ∧ locked σ = false ∧ locked σ' = true)
  ∨ (in_critical t = true ∧ in_critical t' = true ∧ locked σ' = locked σ)
  ∨ (in_critical t = true ∧ in_critical t' = false ∧ locked σ' = false).
Proof.
  unfold in_critical.
  intros [H1 Hl H2 Hl' _|H1 H2 Hl _|H1 H2 Hl _|r H1 H2 Hl _|r H1 H2 Hl _];
    rewrite H1, H2; auto 10.
Qed.

Lemma action_cases (a : action) : (∃ i, a = Resume i) ∨ (∀ i, a ≠ Resume i).
Proof. destruct a; eauto. Qed.

Lemma exclusive_perform a σ : exclusive σ → exclusive (perform cfg a σ).
Proof.
  intros [Hone Hlock].
  destruct (action_cases a) as [[i ->]|Hreq].
  - simpl. destruct (advance_effect i σ) as [->|(t & t' & Hi & Ht & _ & _ & Hst)];
      [by split|].
    apply stage_critical in Hst
      as [(Hc & Hc' & Hl & Hl')|[(Hc & Hc' & Hl)|(Hc & Hc' & Hl)]];
      split; rewrite ?Ht.
    + intros a b ta tb Ha Hb Hca Hcb.
      destruct (lookup_moved _ _ _ _ _ _ Hi Ha) as [[-> ->]|[_ Ha']];
        destruct (lookup_moved _ _ _ _ _ _ Hi Hb) as [[-> ->]|[_ Hb']];
        try done.
      * pose proof (Hlock _ _ Hb' Hcb). congruence.
      * pose proof (Hlock _ _ Ha' Hca). congruence.
      * pose proof (Hlock _ _ Ha' Hca). congruence.
    + done.
    + intros a b ta tb Ha Hb Hca Hcb.
      destruct (lookup_moved _ _ _ _ _ _ Hi Ha) as [[-> ->]|[_ Ha']];
        destruct (lookup_moved _ _ _ _ _ _ Hi Hb) as [[-> ->]|[_ Hb']];
        eauto.
    + intros a ta Ha Hca. rewrite Hl. eauto.
    + intros a b ta tb Ha Hb Hca Hcb.
      destruct (lookup_moved _ _ _ _ _ _ Hi Ha) as [[-> ->]|[Hne Ha']];
        [congruence|].
      by destruct Hne; eapply Hone.
    + intros a ta Ha Hca.
      destruct (lookup_moved _ _ _ _ _ _ Hi Ha) as [[-> ->]|[Hne Ha']];
        [congruence|].
      by destruct Hne; eapply Hone.
  - destruct (request_effect cfg a σ Hreq) as (Hl & _ & new & Ht & Hnew).
    split; rewrite ?Ht, ?Hl.
    + intros i j ti tj Hi Hj Hci Hcj.
      eapply Hone; eauto using lookup_added.
    + intros i t Hi Hc. eapply Hlock; eauto using lookup_added.
Qed.

(** What a move does to the statuses. *)
Lemma stage_jobs t t' σ σ' :
  stage t t' σ σ' →
  (jobs (st σ') = jobs (st σ)
   ∧ (in_call t' = true → in_call t = true))
  ∨ (t_pc t = Entered
     ∧ jobs (st σ') = <[t_job t := PROCESSING]> (jobs (st σ)))
  ∨ (∃ r r', t_pc t = Returned r ∧ t_pc t' = Leaving r'
             ∧ jobs (st σ') = <[t_job t := outcome_status r']> (jobs (st σ))).
Proof.
  intros [H1 Hl H2 Hl' Hs|H1 H2 Hl Hs|H1 H2 Hl Hs|r H1 H2 Hl Hs|r H1 H2 Hl Hs].
  - left. rewrite Hs. split; [done|]. unfold in_call. by rewrite H2.
  - right. left. by rewrite Hs.
  - left. rewrite Hs. split; [apply process_image_jobs|].
    unfold in_call. by rewrite H1.
  - right. right. exists r, (after_gateway (t_job t) (t_params t) r (st σ)).1.
    split; [done|]. split; [done|]. rewrite Hs.
    apply (after_gateway_status (t_job t) (t_params t) r (st σ)).
    apply surjective_pairing.
  - left. rewrite Hs. split; [done|]. unfold in_call. by rewrite H2.
Qed.


Lemma accounted_perform a σ : accounted σ → accounted (perform cfg a σ).
Proof.
  intros Hacc.
  destruct (action_cases a) as [[i ->]|Hreq].
  - simpl. destruct (advance_effect i σ)
      as [->|(t & t' & Hi & Ht & Hjob & _ & Hst)]; [done|].
    assert (Hi' : tasks (advance i σ) !! i = Some t').
    { rewrite Ht. apply list_lookup_insert_eq. by eapply lookup_lt_Some. }
    intros job_id Hsome.
    destruct (decide (job_id = t_job t)) as [->|Hne]; [eauto|].
    assert (jobs (st (advance i σ)) !! job_id = jobs (st σ) !! job_id) as Hsame.
    { destruct (stage_jobs _ _ _ _ Hst)
        as [[-> _]|[[_ ->]|(r & r' & _ & _ & ->)]];
        [done|by rewrite lookup_insert_ne..]. }
    rewrite Hsame in Hsome. destruct (Hacc _ Hsome) as (j & x & Hj & Hx).
    destruct (decide (j = i)) as [->|Hji]; [congruence|].
    exists j, x. split; [|done]. by rewrite Ht, list_lookup_insert_ne.
  - destruct (request_effect cfg a σ Hreq) as (_ & Hjobs & new & Ht & _).
    intros job_id Hsome. rewrite Hjobs in Hsome.
    destruct (Hacc _ Hsome) as (j & x & Hj & Hx).
    exists j, x. split; [|done]. rewrite Ht. by apply lookup_app_l_Some.
Qed.

(** The three invariants hold after every schedule. *)
Lemma run_exclusive schedule s : exclusive (run cfg schedule (start s)).
Proof.
  apply run_invariant; [intros σ a; apply exclusive_perform|]. by split.
Qed.


Lemma run_accounted schedule s :
  jobs s = ∅ → accounted (run cfg schedule (start s)).
Proof.
  intros Hs. apply run_invariant; [intros σ a; apply accounted_perform|].
  intros job_id. simpl. rewrite Hs, lookup_empty. by intros [? [=]].
Qed.

End loop_invariants.

(** ** The event loop: the metadata files *)
Section loop_metadata.
Context `{B : Backend}.
Variable cfg : config.Settings.
Import models loop.

(** A result file that holds an image keeps holding one. *)
Definition results_stay : relation state :=
  λ s s', ∀ job_id k,
    (∃ im, fs s !! result_path job_id k = Some (File (FImage im))) →
    ∃ im, fs s' !! result_path job_id k = Some (File (FImage im)).

(** No metadata file is touched. *)
Definition metas_same : relation state :=
  λ s s', ∀ job_id, fs s' !! meta_path job_id = fs s !! meta_path job_id.

Definition settled : relation state :=
  λ s s', results_stay s s' ∧ metas_same s s'.

#[local] Instance settled_po : PreOrder settled.
Proof.
  split.
  - intros s. split; [by intros job_id k H|by intros job_id].
  - intros s1 s2 s3 [R1 M1] [R2 M2]. split.
    + intros job_id k H. by apply R2, R1.
    + intros job_id. by rewrite M2, M1.
Qed.

#[local] Instance settled_gb : GenBlind settled.
Proof. intros s g. split; [by intros job_id k H|by intros job_id]. Qed.

Lemma settled_same_fs s s' : fs s' = fs s → settled s s'.
Proof.
  intros H. split; [intros job_id k|intros job_id]; by rewrite H.
Qed.

Lemma meta_path_inj a b : meta_path a = meta_path b → a = b.
Proof. unfold meta_path. congruence. Qed.

Lemma result_not_meta a k b : result_path a k ≠ meta_path b.
Proof.
  unfold result_path, meta_path. intros E.
  apply (result_name_not_metadata k). congruence.
Qed.

(** Writing an image under a name other than [metadata.json]. *)
Lemma settled_wrote_image job_id name im s :
  name ≠ "metadata.json" → settled s (wrote [job_id; name] (FImage im) s).
Proof.
  intros Hname. split.
  - intros j k [im' H]. simpl.
    destruct (decide ([job_id; name] = result_path j k)) as [<-|Hne].
    + rewrite lookup_insert_eq. eauto.
    + rewrite lookup_insert_ne by done. eauto.
  - intros j. simpl. rewrite lookup_insert_ne; [done|].
    unfold meta_path. congruence.
Qed.

Lemma process_image_settled job_id p :
  keeps settled (controlnet.process_image job_id p).
Proof.
  apply keeps_process_image; try apply _. intros k im s _.
  apply settled_wrote_image, result_name_not_metadata.
Qed.

Lemma upload_image_settled contents uuid :
  keeps settled (generation.upload_image cfg contents uuid).
Proof.
  apply keeps_upload_image; [apply _| |].
  - intros s _. split.
    + intros j k [im H]. simpl. rewrite lookup_insert_ne by done. eauto.
    + intros j. simpl. by rewrite lookup_insert_ne.
  - intros im s _. by apply settled_wrote_image.
Qed.

(** The results a metadata record lists are the names of the run's
    [num_samples] files, and each is there and holds an image. *)
Definition listed (job_id : string) (p : GenerationParams)
    (paths : list string) (s : state) : Prop :=
  paths = controlnet.result_name <$> seq 0 (Z.to_nat (num_samples p))
  ∧ ∀ k, (k < Z.to_nat (num_samples p))%nat →
         ∃ im, fs s !! result_path job_id k = Some (File (FImage im)).

Lemma listed_stay job_id p paths s s' :
  results_stay s s' → listed job_id p paths s → listed job_id p paths s'.
Proof. intros Hst [Hp Hk]. split; [done|]. intros k Hlt. by apply Hst, Hk. Qed.

Lemma results_stay_meta job_id d s s' :
  fs s' = <[meta_path job_id := d]> (fs s) → results_stay s s'.
Proof.
  intros Hfs j k H. rewrite Hfs, lookup_insert_ne; [done|].
  apply not_eq_sym, result_not_meta.
Qed.

Lemma process_image_listed job_id p s paths s' :
  controlnet.process_image job_id p s = (inr paths, s') →
  listed job_id p paths s'.
Proof.
  intros H. apply process_image_inr in H as (results & Hn & -> & Hfs & _).
  split; [done|]. intros k Hk.
  destruct (lookup_lt_is_Some_2 results k) as [im Him]; [lia|].
  exists im. rewrite Hfs. by apply (stored_lookup job_id 0 results (fs s) k im).
Qed.

(** What a move does to the files. *)
Lemma stage_files t t' σ σ' :
  stage t t' σ σ' →
  (settled (st σ) (st σ')
   ∧ ∀ paths, t_pc t' = Returned (inr paths) →
              listed (t_job t) (t_params t) paths (st σ'))
  ∨ (∃ paths r', t_pc t = Returned (inr paths) ∧ t_pc t' = Leaving r'
       ∧ fs (st σ')
         = <[meta_path (t_job t)
               := File (FJson (job_manager.metadata (t_params t) paths))]>
             (fs (st σ))).
Proof.
  intros [H1 Hl H2 Hl' Hs|H1 H2 Hl Hs|H1 H2 Hl Hs|r H1 H2 Hl Hs|r H1 H2 Hl Hs].
  - left. rewrite Hs, H2. split; [reflexivity|discriminate].
  - left. rewrite Hs, H2. split; [by apply settled_same_fs|discriminate].
  - left. rewrite Hs, H2. split; [apply process_image_settled|].
    intros paths [= Hr]. apply (process_image_listed _ _ (st σ)).
    rewrite <- Hr. apply surjective_pairing.
  - destruct r as [e|paths].
    + left. rewrite Hs, H2, after_gateway_inl.
      split; [by apply settled_same_fs|discriminate].
    + rewrite H2, Hs, after_gateway_inr.
      destruct (write_file _ _ (st σ)) as [[e|[]] s1] eqn:Hw;
        apply write_file_inv in Hw as [(? & -> & _)|(? & ? & ->)];
        simplify_eq; simpl.
      * left. split; [by apply settled_same_fs|discriminate].
      * right. eauto.
  - left. rewrite Hs, H2. split; [reflexivity|discriminate].
Qed.

(** Every task has valid parameters; every metadata file is the record of
    a task of its job, and lists result files that are there; the results a
    task has got back from the gateway are there. *)
Definition recorded (σ : loop_state) : Prop :=
  (∀ i t, tasks σ !! i = Some t → valid (t_params t) = true)
  ∧ (∀ job_id d, fs (st σ) !! meta_path job_id = Some d →
       ∃ i t paths,
         tasks σ !! i = Some t ∧ t_job t = job_id
         ∧ d = File (FJson (job_manager.metadata (t_params t) paths))
         ∧ listed job_id (t_params t) paths (st σ))
  ∧ (∀ i t paths, tasks σ !! i = Some t → t_pc t = Returned (inr paths) →
       listed (t_job t) (t_params t) paths (st σ)).

Lemma request_settled a σ :
  (∀ i, a ≠ Resume i) → settled (st σ) (st (perform cfg a σ)).
Proof.
  intros Ha. destruct a as [contents uuid|p job_id|job_id|name job_id|i]; simpl.
  - apply upload_image_settled.
  - destruct (valid p); [|reflexivity].
    pose proof (generate_images_state p job_id (st σ)) as Hs.
    destruct (generation.generate_images p job_id (st σ)) as [[e|[r new]] s];
      simpl in *; subst s; reflexivity.
  - rewrite get_job_status_state. reflexivity.
  - rewrite get_result_image_state. reflexivity.
  - by destruct (Ha i).
Qed.

Lemma recorded_perform a σ : recorded σ → recorded (perform cfg a σ).
Proof.
  intros (Hvalid & Hmeta & Hret).
  destruct (action_cases a) as [[i ->]|Hreq].
  - simpl. destruct (advance_effect i σ)
      as [->|(t & t' & Hi & Ht & Hjob & Hpar & Hst)]; [done|].
    assert (Hi' : tasks (advance i σ) !! i = Some t').
    { rewrite Ht. apply list_lookup_insert_eq. by eapply lookup_lt_Some. }
    assert (Hkeep : ∀ j x, tasks σ !! j = Some x →
              ∃ x', tasks (advance i σ) !! j = Some x'
                    ∧ t_job x' = t_job x ∧ t_params x' = t_params x).
    { intros j x Hj. destruct (decide (j = i)) as [->|Hne].
      - exists t'. simplify_eq. done.
      - exists x. by rewrite Ht, list_lookup_insert_ne. }
    split; [|split].
    + intros j x Hj. rewrite Ht in Hj.
      destruct (lookup_moved _ _ _ _ _ _ Hi Hj) as [[-> ->]|[_ Hj']];
        [rewrite Hpar|]; eauto.
    + intros job_id d Hd.
      destruct (stage_files _ _ _ _ Hst)
        as [[[Hres Hsame] _]|(paths & r' & Hpc & Hpc' & Hfs)].
      * rewrite Hsame in Hd.
        destruct (Hmeta _ _ Hd) as (j & x & paths & Hj & Hx & -> & Hl).
        destruct (Hkeep _ _ Hj) as (x' & Hj' & Hjob' & Hpar').
        exists j, x', paths. rewrite Hjob', Hpar'.
        eauto using listed_stay.
      * pose proof (results_stay_meta _ _ _ _ Hfs) as Hres.
        rewrite Hfs in Hd. destruct (decide (t_job t = job_id)) as [<-|Hne].
        -- rewrite lookup_insert_eq in Hd. injection Hd as <-.
           exists i, t', paths. rewrite Hjob, Hpar.
           eauto 6 using listed_stay.
        -- rewrite lookup_insert_ne in Hd
             by (intros E; by apply meta_path_inj in E).
           destruct (Hmeta _ _ Hd) as (j & x & paths' & Hj & Hx & -> & Hl).
           destruct (Hkeep _ _ Hj) as (x' & Hj' & Hjob' & Hpar').
           exists j, x', paths'. rewrite Hjob', Hpar'.
           eauto using listed_stay.
    + intros j x paths Hj Hx. rewrite Ht in Hj.
      destruct (stage_files _ _ _ _ Hst)
        as [[[Hres Hsame] Hnew]|(paths' & r' & Hpc & Hpc' & Hfs)];
        destruct (lookup_moved _ _ _ _ _ _ Hi Hj) as [[-> ->]|[_ Hj']].
      * rewrite Hjob, Hpar. eauto.
      * eauto using listed_stay.
      * congruence.
      * eauto using listed_stay, results_stay_meta.
  - destruct (request_effect cfg a σ Hreq) as (_ & _ & new & Ht & Hnew).
    destruct (request_settled a σ Hreq) as [Hres Hsame].
    rewrite Forall_lookup in Hnew.
    split; [|split].
    + intros i t Hi. rewrite Ht in Hi.
      apply lookup_app_Some in Hi as [Hi|[_ Hi]]; [eauto|].
      by apply Hnew in Hi as [_ ?].
    + intros job_id d Hd. rewrite Hsame in Hd.
      destruct (Hmeta _ _ Hd) as (j & x & paths & Hj & Hx & -> & Hl).
      exists j, x, paths. rewrite Ht.
      eauto 6 using listed_stay, lookup_app_l_Some.
    + intros i t paths Hi Hpc. rewrite Ht in Hi.
      apply lookup_app_Some in Hi as [Hi|[_ Hi]];
        [eauto using listed_stay|].
      apply Hnew in Hi as [Hw _]. congruence.
Qed.

Lemma run_recorded schedule s :
  (∀ job_id, fs s !! meta_path job_id = None) →
  recorded (run cfg schedule (start s)).
Proof.
  intros Hnone. apply run_invariant; [intros σ a; apply recorded_perform|].
  split; [|split]; simpl.
  - by intros i t.
  - intros job_id d. by rewrite Hnone.
  - by intros i t paths.
Qed.

End loop_metadata.

(** ** The claims about the loop *)
Section loop_claims.
Context `{B : Backend}.
Variable cfg : config.Settings.
Import models loop.

(** C1.  After any schedule of requests and task switches: two tasks that
    are both between the first statement under the lock and its release are
    one and the same task; while a task is there the lock is held; and of
    two tasks for different jobs, when one is inside its gateway call the
    other is not. *)
Theorem one_generation_at_a_time (s : state) (schedule : list action) :
  (∀ i j ti tj,
     tasks (run cfg schedule (start s)) !! i = Some ti →
     tasks (run cfg schedule (start s)) !! j = Some tj →
     in_critical ti = true → in_critical tj = true → i = j)
  ∧ (∀ i t,
       tasks (run cfg schedule (start s)) !! i = Some t →
       in_critical t = true → locked (run cfg schedule (start s)) = true)
  ∧ (∀ i j ti tj,
       tasks (run cfg schedule (start s)) !! i = Some ti →
       tasks (run cfg schedule (start s)) !! j = Some tj →
       t_job ti ≠ t_job tj →
       in_gateway ti = true → in_gateway tj = false).
Proof.
  destruct (run_exclusive cfg schedule s) as [Hone Hlock].
  split; [exact Hone|]. split; [exact Hlock|].
  intros i j ti tj Hi Hj Hne Hgi.
  destruct (in_gateway tj) eqn:Hgj; [|done].
  assert (i = j) as -> by eauto using in_gateway_critical.
  congruence.
Qed.


(** C5.  [get_job_status] reads the map and answers Pending for an id that
    is not in it; on a server that starts with an empty map, a job for
    which no run was ever started has the status Pending after any
    schedule. *)
Theorem status_of_defaults_to_pending (s : state) (schedule : list action)
    (job_id : string) :
  jobs s = ∅ →
  Forall (λ t, t_job t ≠ job_id) (tasks (run cfg schedule (start s))) →
  (∀ s', job_manager.get_job_status job_id s'
         = default PENDING (jobs s' !! job_id))
  ∧ job_manager.get_job_status job_id (st (run cfg schedule (start s)))
    = PENDING.
Proof.
  intros Hs Hnone. split; [done|].
  unfold job_manager.get_job_status.
  destruct (jobs (st (run cfg schedule (start s))) !! job_id) as [x|] eqn:E;
    [|done].
  destruct (run_accounted cfg schedule s Hs job_id) as (i & t & Hi & Ht);
    [by rewrite E|].
  rewrite Forall_lookup in Hnone. by destruct (Hnone i t Hi).
Qed.


End loop_claims.

(** ** The loop on the small backend *)
Section loop_examples.
Import models loop.
#[local] Existing Instance toy.backend.

(** Two generation requests, for the jobs ["j"] and ["k"]; the first task
    takes the lock and enters the gateway; the second, resumed twice, still
    waits. *)
Definition contended : list action :=
  [ Generate (toy.params 1 20 42) "j"; Generate (toy.params 1 20 42) "k";
    Resume 0; Resume 0; Resume 1; Resume 1 ].

Lemma second_task_waits :
  t_pc <$> tasks (run config.settings contended (start toy.two_uploads))
  = [Calling; Waiting]
  ∧ locked (run config.settings contended (start toy.two_uploads)) = true
  ∧ t_pc <$> tasks (run config.settings
                      (contended ++ [Resume 0; Resume 0; Resume 0; Resume 1])
                      (start toy.two_uploads))
    = [Finished (inr ["result_0.png"]); Entered].
Proof. repeat split; evaluate. Qed.


(** One generation for ["j"], run to its end; ["k"] was uploaded and never
    run. *)
Lemma status_of_defaults_to_pending_witness :
  job_manager.get_job_status "k"
    (st (run config.settings
           [Generate (toy.params 1 20 42) "j";
            Resume 0; Resume 0; Resume 0; Resume 0; Resume 0]
           (start toy.two_uploads)))
  = PENDING
  ∧ job_manager.get_job_status "j"
      (st (run config.settings
             [Generate (toy.params 1 20 42) "j";
              Resume 0; Resume 0; Resume 0; Resume 0; Resume 0]
             (start toy.two_uploads)))
    = COMPLETED.
Proof.
  split; [|evaluate].
  apply (status_of_defaults_to_pending config.settings toy.two_uploads
           [Generate (toy.params 1 20 42) "j";
            Resume 0; Resume 0; Resume 0; Resume 0; Resume 0] "k").
  - reflexivity.
  - assert (t_job <$> tasks (run config.settings
                     [Generate (toy.params 1 20 42) "j";
                      Resume 0; Resume 0; Resume 0; Resume 0; Resume 0]
                     (start toy.two_uploads)) = ["j"]) as Hjobs by evaluate.
    rewrite Forall_forall. intros t Ht.
    apply (list_elem_of_fmap_2 t_job) in Ht. rewrite Hjobs in Ht.
    apply list_elem_of_singleton in Ht. simpl. rewrite Ht. discriminate.
Defined.


End loop_examples.

(** * Further properties of the code *)

(** ** Uploads: what [upload_image] answers and what it leaves *)
Section upload_properties.
Context `{B : Backend}.
Import models config.

(** What the outer [except] clauses of [upload_image] make of an exception. *)
Definition upload_error (e : exn) : exn :=
  match e with
  | HTTPException _ _ => e
  | _ => HTTPException 500 ("Unexpected error during upload: " +:+ str_exn e)
  end.

(** The part of [upload_image] before the job is created: the image, its
    original size and the size it is stored with, or the exception the
    endpoint raises. *)
Definition prepared (cfg : Settings) (contents : list Byte.byte)
  : exn + (image * (Z * Z) * (Z * Z)) :=
  match Image_open contents with
  | inl e => inl (HTTPException 400 ("Invalid image file: " +:+ str_exn e))
  | inr im =>
      if Z.max (image_size im).1 (image_size im).2 >? MAX_IMAGE_SIZE cfg
      then match generation.scaled_size cfg (image_size im) with
           | inl e => inl (upload_error e)
           | inr ns => match Image_resize im ns with
                       | inl e => inl (upload_error e)
                       | inr im' => inr (im', image_size im, ns)
                       end
           end
      else inr (im, image_size im, image_size im)
  end.

(** The message of a successful upload. *)
Definition upload_message (original_size new_size : Z * Z) : string :=
  "Image uploaded successfully" +:+
  (if bool_decide (new_size ≠ original_size)
   then " and resized from " +:+ generation.str_size original_size
        +:+ " to " +:+ generation.str_size new_size
   else "").

(** [upload_image] is: prepare the image, create the directory, save. *)
Lemma upload_image_prepared cfg contents uuid s :
  generation.upload_image cfg contents uuid s
  = match prepared cfg contents with
    | inl e => (inl e, s)
    | inr (im, original_size, new_size) =>
        match mkdir [uuid] s with
        | (inl e, s1) =>
            (inl (HTTPException 500
                    ("Failed to create job directory: " +:+ str_exn e)), s1)
        | (inr _, s1) =>
            match write_file [uuid; "input.png"] (FImage im) s1 with
            | (inl e, s2) =>
                (inl (HTTPException 500
                        ("Failed to save image: " +:+ str_exn e)), s2)
            | (inr _, s2) =>
                (inr (mkJobResponse uuid PENDING
                        (Some (upload_message original_size new_size))), s2)
            end
        end
    end.
Proof.
  unfold generation.upload_image, prepared, upload_message.
  unfold try_except at 1, bind at 1, try_except at 1, lift at 1.
  destruct (Image_open contents) as [e|im]; [done|].
  cbn [raise]. cbv zeta.
  destruct (_ >? _).
  - unfold bind at 1, bind at 1, lift at 1.
    destruct (generation.scaled_size cfg (image_size im)) as [e|ns];
      [by destruct e|].
    unfold bind at 1, lift at 1.
    destruct (Image_resize im ns) as [e|im']; [by destruct e|].
    unfold ret at 1. cbn [fst snd].
    unfold bind at 1, try_except at 1.
    destruct (mkdir [uuid] s) as [[e|[]] s1]; [done|].
    unfold bind at 1, try_except at 1.
    by destruct (write_file _ _ s1) as [[e|[]] s2].
  - unfold bind at 1, ret at 1. cbn [fst snd].
    unfold bind at 1, try_except at 1.
    destruct (mkdir [uuid] s) as [[e|[]] s1]; [done|].
    unfold bind at 1, try_except at 1.
    by destruct (write_file _ _ s1) as [[e|[]] s2].
Qed.


(** The state once [mkdir] has created the directory [p]. *)
Definition made (p : path) (s : state) : state :=
  mkState (jobs s) (<[p := Dir]> (fs s)) (gen s) (log s).

Lemma mkdir_inv p s r s1 :
  mkdir p s = (r, s1) →
  (r = inr () ∧ s1 = s ∧ fs s !! p = Some Dir)
  ∨ (r = inr () ∧ s1 = made p s ∧ fs s !! p = None)
  ∨ (∃ d, r = inl (OSError "File exists") ∧ s1 = s ∧ fs s !! p = Some (File d)).
Proof.
  unfold mkdir. destruct (fs s !! p) as [[|d]|] eqn:E; intros [= <- <-]; eauto 8.
Qed.

(** X1.  An upload that PIL cannot open is answered 400 with PIL's message,
    and leaves the server as it was: no job directory is created. *)
Theorem upload_rejects_undecodable (cfg : Settings) (contents : list Byte.byte)
    (uuid : string) (s : state) (e : exn) :
  Image_open contents = inl e →
  generation.upload_image cfg contents uuid s
  = (inl (HTTPException 400 ("Invalid image file: " +:+ str_exn e)), s).
Proof.
  intros Hopen. rewrite upload_image_prepared. unfold prepared.
  by rewrite Hopen.
Qed.

(** X2.  Whatever is uploaded, [upload_image] either raises an
    [HTTPException], or answers with the new job's id and the status
    Pending, and then the job's directory exists and [input.png] in it
    holds an image. *)
Theorem upload_answers_or_raises_http (cfg : Settings)
    (contents : list Byte.byte) (uuid : string) (s : state) :
  match (generation.upload_image cfg contents uuid s).1 with
  | inl e => ∃ code detail, e = HTTPException code detail
  | inr r =>
      job_id r = uuid ∧ status r = PENDING
      ∧ fs (generation.upload_image cfg contents uuid s).2 !! [uuid]
        = Some Dir
      ∧ ∃ im, fs (generation.upload_image cfg contents uuid s).2
                !! [uuid; "input.png"] = Some (File (FImage im))
  end.
Proof.
  rewrite upload_image_prepared.
  destruct (prepared cfg contents) as [e|[[im osz] ns]] eqn:Hp.
  - simpl. unfold prepared in Hp.
    destruct (Image_open contents) as [e0|im]; [injection Hp as <-; eauto|].
    destruct (_ >? _); [|discriminate].
    destruct (generation.scaled_size _ _) as [e1|ns].
    { injection Hp as <-. destruct e1; simpl; eauto. }
    destruct (Image_resize im ns) as [e2|im']; [|discriminate].
    injection Hp as <-. destruct e2; simpl; eauto.
  - destruct (mkdir [uuid] s) as [[e|[]] s1] eqn:Hmk; [simpl; eauto|].
    destruct (write_file _ _ s1) as [[e|[]] s2] eqn:Hw; [simpl; eauto|].
    apply write_file_inv in Hw as [(_ & -> & Hparent & _)|(? & [=] & _)].
    simpl. split; [done|]. split; [done|].
    rewrite lookup_insert_ne by done. rewrite lookup_insert_eq.
    split; [|eauto]. unfold is_dir in Hparent. simpl in Hparent.
    by destruct (fs s1 !! [uuid]) as [[|d]|].
Qed.


(** X4.  An upload never changes a job status, the generators, or any path
    other than the new job's directory and its [input.png]: the files of
    the other jobs are as they were. *)
Theorem upload_touches_only_its_job (cfg : Settings)
    (contents : list Byte.byte) (uuid : string) (s : state) :
  jobs (generation.upload_image cfg contents uuid s).2 = jobs s
  ∧ gen (generation.upload_image cfg contents uuid s).2 = gen s
  ∧ ∀ q, q ≠ [uuid] → q ≠ [uuid; "input.png"] →
         fs (generation.upload_image cfg contents uuid s).2 !! q = fs s !! q.
Proof.
  rewrite upload_image_prepared.
  destruct (prepared cfg contents) as [e|[[im osz] ns]]; [done|].
  destruct (mkdir [uuid] s) as [[e|[]] s1] eqn:Hmk;
    apply mkdir_inv in Hmk
      as [(_ & -> & _)|[(_ & -> & _)|(d & ? & -> & _)]]; try done;
    try (simpl; split; [done|]; split; [done|];
         intros q Hq _; by rewrite lookup_insert_ne);
    destruct (write_file _ _ _) as [[e|[]] s2] eqn:Hw;
    apply write_file_inv in Hw as [(? & -> & _)|(? & ? & ->)]; try done;
    simpl; (split; [done|]; split; [done|]);
    intros q Hq Hq'; by rewrite ?lookup_insert_ne.
Qed.

End upload_properties.

(** ** The upload properties on the small backend *)
Section upload_examples.
Import models.
#[local] Existing Instance toy.backend.

(** An empty upload. *)
Lemma upload_rejects_undecodable_witness :
  generation.upload_image config.settings [] "n" toy.uploaded
  = (inl (HTTPException 400 "Invalid image file: cannot identify image file"),
     toy.uploaded).
Proof.
  apply (upload_rejects_undecodable config.settings [] "n" toy.uploaded
           (ValueError "cannot identify image file")).
  reflexivity.
Defined.


End upload_examples.

(** ** The run: failures, and what a run leaves alone *)
Section run_properties.
Context `{B : Backend}.
Import models.

Lemma after_gateway_same_at job_id p r q :
  q ≠ meta_path job_id →
  keeps (same_at q) (loop.after_gateway job_id p r).
Proof.
  intros Hq s. destruct r as [e|paths].
  - by rewrite after_gateway_inl.
  - rewrite after_gateway_inr.
    destruct (write_file _ _ s) as [[e|[]] s1] eqn:Hw;
      apply write_file_inv in Hw as [(? & -> & _)|(? & ? & ->)];
      simplify_eq; unfold same_at; simpl; [done|].
    by rewrite lookup_insert_ne.
Qed.

(** X5.  Without an image at [input.png] (no upload, or a job directory that
    does not exist) the run fails before the model is called: it raises
    [ValueError], the status is Failed, and neither the files nor the
    generators have changed. *)
Theorem run_without_input_fails (job_id : string) (p : GenerationParams)
    (s : state) :
  (∀ im, fs s !! [job_id; "input.png"] ≠ Some (File (FImage im))) →
  (job_manager.process_job job_id p s).1
  = inl (ValueError "Failed to load input image")
  ∧ job_manager.get_job_status job_id (job_manager.process_job job_id p s).2
    = FAILED
  ∧ fs (job_manager.process_job job_id p s).2 = fs s
  ∧ gen (job_manager.process_job job_id p s).2 = gen s
  ∧ log (job_manager.process_job job_id p s).2
    = log s ++ [EvStatus job_id PROCESSING; EvStatus job_id FAILED].
Proof.
  intros Hno.
  assert (controlnet.process_image job_id p
            (job_manager.set_status job_id PROCESSING s).2
          = (inl (ValueError "Failed to load input image"),
             (job_manager.set_status job_id PROCESSING s).2)) as Hg.
  { unfold controlnet.process_image. rewrite try_except_reraise.
    unfold bind, controlnet._load_image. simpl.
    destruct (fs s !! [job_id; "input.png"]) as [[|[im|j]]|] eqn:E; try done.
    by destruct (Hno im). }
  rewrite process_job_stages, Hg. simpl.
  unfold job_manager.get_job_status. simpl. rewrite lookup_insert_eq.
  by rewrite <- app_assoc.
Qed.

(** X6.  Whatever happens in it, a run assigns the job's status exactly
    twice: Processing first, and last Completed when it returns or Failed
    when it raises (in the gateway or while the metadata is written).  In
    between it only writes files; the status the job is left with is that
    last one, never Processing. *)
Theorem run_sets_status_twice (job_id : string) (p : GenerationParams)
    (s : state) :
  ∃ writes,
    log (job_manager.process_job job_id p s).2
    = log s ++ [EvStatus job_id PROCESSING] ++ writes
      ++ [EvStatus job_id
            (outcome_status (job_manager.process_job job_id p s).1)]
    ∧ Forall (λ ev, ∃ q, ev = EvWrite q) writes
    ∧ job_manager.get_job_status job_id (job_manager.process_job job_id p s).2
      = outcome_status (job_manager.process_job job_id p s).1.
Proof.
  rewrite process_job_stages.
  set (s0 := (job_manager.set_status job_id PROCESSING s).2).
  destruct (process_image_logs job_id p s0) as (evs & Hlog & Hevs).
  assert (Forall (λ ev, ∃ q, ev = EvWrite q) evs) as Hw.
  { eapply Forall_impl; [exact Hevs|]. intros ev [k ->]. eauto. }
  destruct (controlnet.process_image job_id p s0) as [[e|paths] s1];
    simpl in Hlog; cbn [fst snd].
  - rewrite after_gateway_inl. exists evs. simpl.
    unfold job_manager.get_job_status. simpl. rewrite lookup_insert_eq.
    rewrite Hlog. by rewrite <- !app_assoc.
  - rewrite after_gateway_inr.
    destruct (write_file _ _ s1) as [[e|[]] s2] eqn:E;
      apply write_file_inv in E as [(? & -> & _)|(? & ? & ->)]; simplify_eq.
    + exists evs. simpl.
      unfold job_manager.get_job_status. simpl. rewrite lookup_insert_eq.
      rewrite Hlog. by rewrite <- !app_assoc.
    + exists (evs ++ [EvWrite (meta_path job_id)]). simpl.
      unfold job_manager.get_job_status. simpl. rewrite lookup_insert_eq.
      rewrite Hlog. split; [by rewrite <- !app_assoc|]. split; [|done].
      apply Forall_app. split; [done|]. repeat constructor. eauto.
Qed.

(** X7.  A run changes no status but its own job's, and no path but its own
    job's [result_<k>.png] files and [metadata.json]: the other jobs'
    directories and the job's own [input.png] are as they were, whether the
    run returns or raises. *)
Theorem run_touches_only_its_job (job_id : string) (p : GenerationParams)
    (s : state) :
  (∀ other, other ≠ job_id →
            jobs (job_manager.process_job job_id p s).2 !! other
            = jobs s !! other)
  ∧ (∀ q, (∀ k, q ≠ result_path job_id k) → q ≠ meta_path job_id →
          fs (job_manager.process_job job_id p s).2 !! q = fs s !! q)
  ∧ fs (job_manager.process_job job_id p s).2 !! [job_id; "input.png"]
    = fs s !! [job_id; "input.png"].
Proof.
  rewrite process_job_stages.
  set (s0 := (job_manager.set_status job_id PROCESSING s).2).
  destruct (controlnet.process_image job_id p s0) as [r s1] eqn:Hg. simpl.
  destruct (loop.after_gateway job_id p r s1) as [r' s2] eqn:Ha. simpl.
  assert (Hframe : ∀ q, (∀ k, q ≠ result_path job_id k) → q ≠ meta_path job_id →
                        fs s2 !! q = fs s !! q).
  { intros q Hres Hmeta.
    pose proof (after_gateway_same_at job_id p r q Hmeta s1) as H2.
    pose proof (process_image_same_at job_id p q Hres s0) as H1.
    rewrite Ha in H2. rewrite Hg in H1. unfold same_at in *. simpl in *.
    by rewrite H2, H1. }
  split; [|split; [exact Hframe|]].
  - intros other Hne. apply after_gateway_status in Ha.
    pose proof (process_image_jobs job_id p s0) as H1. rewrite Hg in H1.
    unfold same_jobs in H1. simpl in H1.
    by rewrite Ha, H1, !lookup_insert_ne.
  - apply Hframe; [|by intros [=]].
    intros k E. unfold result_path in E. injection E as E.
    unfold controlnet.result_name in E. simpl in E. discriminate.
Qed.

End run_properties.

(** ** The run properties on the small backend *)
Section run_property_examples.
Import models.
#[local] Existing Instance toy.backend.

(** The job ["k"] has no directory on the server with one upload. *)
Lemma run_without_input_fails_witness :
  (job_manager.process_job "k" (toy.params 1 20 42) toy.uploaded).1
  = inl (ValueError "Failed to load input image")
  ∧ job_manager.get_job_status "k"
      (job_manager.process_job "k" (toy.params 1 20 42) toy.uploaded).2
    = FAILED
  ∧ fs (job_manager.process_job "k" (toy.params 1 20 42) toy.uploaded).2
    = fs toy.uploaded
  ∧ gen (job_manager.process_job "k" (toy.params 1 20 42) toy.uploaded).2
    = gen toy.uploaded
  ∧ log (job_manager.process_job "k" (toy.params 1 20 42) toy.uploaded).2
    = log toy.uploaded ++ [EvStatus "k" PROCESSING; EvStatus "k" FAILED].
Proof.
  apply (run_without_input_fails "k" (toy.params 1 20 42) toy.uploaded).
  intros im. assert (fs toy.uploaded !! ["k"; "input.png"] = None) as ->
    by evaluate.
  discriminate.
Defined.

End run_property_examples.

(** ** The gateway's batch *)
Section batch_properties.
Context `{B : Backend}.
Import models.

(** The seeding statement of [_generate]. *)
Definition seeding (params : GenerationParams) : M unit :=
  if decide (seed params ≠ -1)
  then controlnet.manual_seed (seed params) ;;;
       controlnet.random_seed (seed params)
  else ret ().

(** [[xs[i] for i in range(i0, i0 + n)]] *)
Lemma forM_getitem_seq (xs : list image) (i0 n : nat) s :
  (i0 ≤ length xs)%nat →
  forM (getitem xs) (seq i0 n) s
  = (if decide (i0 + n ≤ length xs)%nat
     then inr (take n (drop i0 xs))
     else inl (IndexError "index out of bounds"), s).
Proof.
  revert i0. induction n as [|n IH]; intros i0 Hi0; simpl.
  - rewrite decide_True by lia. done.
  - unfold bind, getitem.
    destruct (xs !! i0) as [x|] eqn:Hx.
    + apply lookup_lt_Some in Hx as Hlt. unfold ret at 1.
      rewrite IH by lia. unfold ret.
      destruct (decide (S i0 + n ≤ length xs)%nat);
        [rewrite decide_True by lia|by rewrite decide_False by lia].
      rewrite (drop_S xs x i0 Hx). done.
    + apply lookup_ge_None in Hx. unfold raise. by rewrite decide_False by lia.
Qed.

(** X8.  When preprocessing and seeding go through and the sampler gives a
    batch, [_generate] returns the first [num_samples] images of the batch,
    in the batch's order, and raises [IndexError] when the batch holds
    fewer: it never returns a list shorter than asked for. *)
Theorem generate_returns_first_of_batch (input_image : image)
    (p : GenerationParams) (s s1 : state) (d c : image) (xs : list image)
    (g : torch_state * numpy_state) :
  detect_edges input_image (image_resolution p) (low_threshold p)
    (high_threshold p) = inr d →
  stack_control d (num_samples p) = inr c →
  seeding p s = (inr (), s1) →
  ddim_sample c p (gen s1) = (inr xs, g) →
  (controlnet._generate input_image p s).1
  = if decide (Z.to_nat (num_samples p) ≤ length xs)%nat
    then inr (take (Z.to_nat (num_samples p)) xs)
    else inl (IndexError "index out of bounds").
Proof.
  intros Hd Hc Hseed Hxs.
  unfold controlnet._generate, bind at 1, lift at 1. rewrite Hd.
  unfold bind at 1, lift at 1. rewrite Hc.
  unfold bind at 1. fold (seeding p). rewrite Hseed.
  unfold bind at 1, controlnet.sample. rewrite Hxs.
  unfold range. rewrite forM_getitem_seq by lia. simpl.
  by rewrite drop_0.
Qed.

End batch_properties.

(** ** The status endpoint's list of images *)
Section listing_properties.
Context `{B : Backend}.
Import models.

Lemma append_cons x a b : String x a +:+ b = String x (a +:+ b).
Proof. reflexivity. Qed.

Lemma prefix_append a b : String.prefix a (a +:+ b) = true.
Proof.
  induction a as [|c a IH]; [by destruct b|].
  rewrite append_cons. simpl. by destruct (ascii_dec c c).
Qed.

Lemma append_assoc_ a b c : (a +:+ b) +:+ c = a +:+ (b +:+ c).
Proof.
  induction a as [|x a IH]; [done|]. rewrite !append_cons. by rewrite IH.
Qed.

Lemma rev_app_append s acc : String.rev_app s acc = String.rev s +:+ acc.
Proof.
  unfold String.rev. revert acc. induction s as [|x s IH]; intros acc; simpl;
    [done|].
  rewrite (IH (String x acc)), (IH (String x "")), append_assoc_. done.
Qed.

Lemma rev_app_of_append a b acc :
  String.rev_app (a +:+ b) acc = String.rev_app b (String.rev_app a acc).
Proof.
  revert acc. induction a as [|x a IH]; intros acc; [done|].
  rewrite append_cons. simpl. apply IH.
Qed.

Lemma rev_append a b : String.rev (a +:+ b) = String.rev b +:+ String.rev a.
Proof.
  unfold String.rev at 1. rewrite rev_app_of_append. apply rev_app_append.
Qed.

Lemma length_append_ a b :
  String.length (a +:+ b) = (String.length a + String.length b)%nat.
Proof.
  induction a as [|x a IH]; [done|]. rewrite append_cons. simpl. by rewrite IH.
Qed.

(** Every result name matches [result_*.png]. *)
Lemma result_name_matches k :
  generation.is_result_png (controlnet.result_name k) = true.
Proof.
  unfold generation.is_result_png, controlnet.result_name.
  rewrite prefix_append. rewrite !rev_append, append_assoc_, prefix_append.
  rewrite bool_decide_eq_true_2; [done|].
  rewrite !length_append_. simpl. lia.
Qed.

(** The names [glob_results] gives: the files of the job's directory whose
    name matches. *)
Lemma elem_of_glob_results name job_id s :
  name ∈ generation.glob_results job_id s
  ↔ generation.is_result_png name = true ∧ is_Some (fs s !! [job_id; name]).
Proof.
  unfold generation.glob_results. rewrite list_elem_of_omap. split.
  - intros ([q n] & Hin & Hf). apply elem_of_map_to_list in Hin. simpl in Hf.
    destruct q as [|j [|name' [|]]]; try done.
    destruct (bool_decide (j = job_id)) eqn:Hj; [|done].
    destruct (generation.is_result_png name') eqn:Hname; [|done].
    apply bool_decide_eq_true in Hj as ->. injection Hf as ->. eauto.
  - intros [Hname [n Hn]]. exists ([job_id; name], n).
    split; [by apply elem_of_map_to_list|]. simpl.
    by rewrite bool_decide_eq_true_2, Hname.
Qed.

Lemma NoDup_glob_results job_id s : NoDup (generation.glob_results job_id s).
Proof.
  unfold generation.glob_results.
  pose proof (NoDup_fst_map_to_list (fs s)) as Hnd.
  induction (map_to_list (fs s)) as [|[q n] l IH]; [constructor|].
  apply NoDup_cons in Hnd as [Hq Hnd]. simpl.
  destruct q as [|j [|name [|]]]; try by apply IH.
  destruct (bool_decide (j = job_id) && generation.is_result_png name)
    eqn:Hsel; [|by apply IH].
  apply NoDup_cons. split; [|by apply IH].
  intros Hin. apply list_elem_of_omap in Hin as ([q' n'] & Hin & Hf).
  apply Hq. simpl in Hf.
  destruct q' as [|j' [|name' [|]]]; try done.
  destruct (bool_decide (j' = job_id)) eqn:Hj'; [|done].
  destruct (generation.is_result_png name'); [|done].
  apply andb_prop in Hsel as [Hj _].
  apply bool_decide_eq_true in Hj as ->.
  apply bool_decide_eq_true in Hj' as ->. injection Hf as ->.
  apply list_elem_of_fmap. by exists ([job_id; name], n').
Qed.

(** X9.  For a job whose directory exists, the status endpoint answers with
    the coordinator's status; it gives a list of images only when that
    status is Completed, and the list then holds, once each, exactly the
    files of the job's directory whose names match [result_*.png] ([input.png]
    and [metadata.json] are never in it). *)
Theorem status_lists_the_result_files (job_id : string) (s : state) :
  is_Some (fs s !! [job_id]) →
  ∃ r, generation.get_job_status job_id s = (inr r, s)
       ∧ g_status r = job_manager.get_job_status job_id s
       ∧ (g_status r ≠ COMPLETED → images r = None)
       ∧ (g_status r = COMPLETED →
          ∃ names, images r = Some names ∧ NoDup names
                   ∧ (∀ name, name ∈ names
                              ↔ (generation.is_result_png name = true
                                 ∧ is_Some (fs s !! [job_id; name])))
                   ∧ ("input.png" ∉ names) ∧ ("metadata.json" ∉ names)).
Proof.
  intros Hdir. unfold generation.get_job_status, bind.
  rewrite verify_job_id_present by done. unfold try_except.
  case_bool_decide as Hst; eexists; (split; [done|]); simpl;
    (split; [done|]); (split; [done|]); [|done].
  intros _. exists (generation.glob_results job_id s).
  split; [done|]. split; [apply NoDup_glob_results|].
  split; [intros name; apply elem_of_glob_results|].
  split; intros Hin; apply elem_of_glob_results in Hin as [Hm _]; done.
Qed.

(** A run that returns leaves the job's directory in place. *)
Lemma process_job_inr_dir job_id p s paths s' :
  job_manager.process_job job_id p s = (inr paths, s') →
  fs s' !! [job_id] = Some Dir.
Proof.
  rewrite process_job_stages.
  destruct (controlnet.process_image job_id p _) as [[e|paths'] s2]; simpl.
  { rewrite after_gateway_inl. discriminate. }
  rewrite after_gateway_inr.
  destruct (write_file _ _ s2) as [[e|[]] s3] eqn:Hw; [discriminate|].
  intros [= <- <-].
  apply write_file_inv in Hw as [(_ & -> & Hparent & _)|(? & [=] & _)].
  simpl. rewrite lookup_insert_ne by done.
  unfold is_dir in Hparent. simpl in Hparent.
  by destruct (fs s2 !! [job_id]) as [[|d]|].
Qed.

(** X10.  After the first run of a job (no file matching [result_*.png] in
    its directory before) has returned, a status poll answers Completed
    with, in some order, exactly the names the run returned. *)
Theorem first_run_is_listed_exactly (job_id : string) (p : GenerationParams)
    (s : state) (paths : list string) (s' : state) :
  (∀ name, generation.is_result_png name = true →
           fs s !! [job_id; name] = None) →
  job_manager.process_job job_id p s = (inr paths, s') →
  ∃ names,
    generation.get_job_status job_id s'
    = (inr (mkGenerationResponse job_id COMPLETED None (Some names)), s')
    ∧ names ≡ₚ paths.
Proof.
  intros Hfresh Hrun.
  pose proof (process_job_inr_dir _ _ _ _ _ Hrun) as Hdir.
  pose proof (process_job_status _ _ _ _ _ Hrun) as Hst. simpl in Hst.
  apply process_job_inr in Hrun as (results & Hlen & Hpaths & Hfs & _).
  exists (generation.glob_results job_id s'). split.
  { unfold generation.get_job_status, bind.
    rewrite verify_job_id_present by (rewrite Hdir; eauto).
    unfold try_except. by rewrite Hst, bool_decide_eq_true_2. }
  apply NoDup_Permutation; [apply NoDup_glob_results| |].
  { rewrite Hpaths. apply NoDup_fmap_2_strong; [|apply NoDup_seq].
    intros i j _ _. apply result_name_inj. }
  intros name. rewrite elem_of_glob_results. split.
  - intros [Hm [n Hn]]. destruct (decide (name ∈ paths)) as [|Hnot]; [done|].
    rewrite Hfs in Hn.
    rewrite lookup_insert_ne in Hn by (unfold meta_path; intros [= <-]; done).
    rewrite stored_other, Hfresh in Hn; [done|done|].
    intros k Hk E. apply Hnot. rewrite Hpaths.
    unfold result_path in E. injection E as ->.
    apply list_elem_of_fmap_2, elem_of_seq. lia.
  - intros Hin. rewrite Hpaths in Hin.
    apply list_elem_of_fmap in Hin as (k & -> & Hk). apply elem_of_seq in Hk.
    split; [apply result_name_matches|].
    destruct (lookup_lt_is_Some_2 results k) as [im Him]; [lia|].
    change [job_id; controlnet.result_name k] with (result_path job_id k).
    rewrite Hfs, lookup_insert_ne
      by (intros E; by apply (result_path_not_meta job_id k)).
    pose proof (stored_lookup job_id 0 results (fs s) k im Him) as Hk'.
    simpl in Hk'. rewrite Hk'. eauto.
Qed.

End listing_properties.

(** ** The event loop: what every schedule keeps *)
Section loop_properties.
Context `{B : Backend}.
Variable cfg : config.Settings.
Import models loop.

Lemma is_dir_false p s : is_dir p s = false → fs s !! p ≠ Some Dir.
Proof. destruct p; [done|]. simpl. intros H E. by rewrite E in H. Qed.

Lemma is_dir_true p s : p ≠ [] → is_dir p s = true → fs s !! p = Some Dir.
Proof.
  destruct p; [done|]. simpl. intros _. by destruct (fs s !! _) as [[|]|].
Qed.


(** *** Relations that every step of the loop keeps

    A preorder on states that is kept by the assignment of a status, by the
    writing of a result or of a metadata file into a directory that exists,
    and by an upload, is kept by every action of the loop. *)
Section any_step.
Context (R : relation state) `{!PreOrder R} `{!GenBlind R}.
Hypothesis R_status : ∀ j v s, R s (job_manager.set_status j v s).2.
Hypothesis R_result : ∀ j k im s,
  fs s !! [j] = Some Dir → fs s !! result_path j k ≠ Some Dir →
  R s (wrote (result_path j k) (FImage im) s).
Hypothesis R_meta : ∀ j js s,
  fs s !! [j] = Some Dir → fs s !! meta_path j ≠ Some Dir →
  R s (wrote (meta_path j) (FJson js) s).

Lemma step_save_results job_id idx results acc :
  keeps R (controlnet.save_results job_id idx results acc).
Proof.
  revert idx acc.
  induction results as [|r rs IH]; intros idx acc; simpl;
    [by apply (keeps_ret R)|].
  apply (keeps_bind R); [|intros _; apply IH].
  intros s. destruct (write_file _ _ s) as [x s'] eqn:E.
  apply write_file_inv in E as [(_ & -> & Hpar & Hp)|(e & _ & ->)]; simpl;
    [|reflexivity].
  apply (R_result job_id idx r s).
  - by apply is_dir_true in Hpar.
  - by apply is_dir_false.
Qed.

Lemma step_process_image job_id p :
  keeps R (controlnet.process_image job_id p).
Proof.
  unfold controlnet.process_image.
  apply (keeps_try_except R); [|intros e; by apply (keeps_raise R)].
  apply (keeps_bind R); [by apply (keeps_load_image R)|]. intros im.
  apply (keeps_bind R); [by apply (keeps_generate R)|]. intros results.
  apply step_save_results.
Qed.

Lemma step_after_gateway job_id p r : keeps R (after_gateway job_id p r).
Proof.
  intros s. destruct r as [e|paths].
  - rewrite after_gateway_inl. apply (R_status job_id FAILED s).
  - rewrite after_gateway_inr.
    destruct (write_file _ _ s) as [[e|[]] s1] eqn:Hw;
      apply write_file_inv in Hw as [(? & -> & Hpar & Hp)|(? & ? & ->)];
      simplify_eq.
    + apply (R_status job_id FAILED s).
    + etrans; [|apply (R_status job_id COMPLETED)].
      apply R_meta; [by apply is_dir_true in Hpar|by apply is_dir_false].
Qed.

Lemma stage_keeps t t' σ σ' : stage t t' σ σ' → R (st σ) (st σ').
Proof.
  intros [_ _ _ _ Hs|_ _ _ Hs|_ _ _ Hs|r _ _ _ Hs|r _ _ _ Hs]; rewrite Hs.
  - reflexivity.
  - apply R_status.
  - apply step_process_image.
  - apply step_after_gateway.
  - reflexivity.
Qed.

Lemma perform_keeps :
  (∀ contents uuid, keeps R (generation.upload_image cfg contents uuid)) →
  ∀ a σ, R (st σ) (st (perform cfg a σ)).
Proof.
  intros Hup a σ. destruct a as [contents uuid|p job_id|job_id|name job_id|i];
    simpl.
  - apply Hup.
  - destruct (valid p); [|reflexivity].
    pose proof (generate_images_state p job_id (st σ)) as Hs.
    destruct (generation.generate_images p job_id (st σ)) as [[e|[r new]] s];
      simpl in *; subst s; reflexivity.
  - rewrite get_job_status_state. reflexivity.
  - rewrite get_result_image_state. reflexivity.
  - destruct (advance_effect i σ) as [->|(t & t' & _ & _ & _ & _ & Hst)];
      [reflexivity|by eapply stage_keeps].
Qed.

End any_step.

Lemma run_keeps (R : relation state) `{!PreOrder R} :
  (∀ a σ, R (st σ) (st (perform cfg a σ))) →
  ∀ schedule σ, R (st σ) (st (run cfg schedule σ)).
Proof.
  intros H schedule. induction schedule as [|a l IH]; intros σ; simpl;
    [reflexivity|].
  etrans; [apply (H a)|apply IH].
Qed.

Lemma run_app l1 l2 σ : run cfg (l1 ++ l2) σ = run cfg l2 (run cfg l1 σ).
Proof. apply foldl_app. Qed.

(** *** Nothing is removed *)

(** A directory stays a directory, a file stays a file, a job that has a
    recorded status keeps having one. *)
Definition kept : relation state := λ s s',
  (∀ p, fs s !! p = Some Dir → fs s' !! p = Some Dir)
  ∧ (∀ p d, fs s !! p = Some (File d) → ∃ d', fs s' !! p = Some (File d'))
  ∧ (∀ j, is_Some (jobs s !! j) → is_Some (jobs s' !! j)).

#[local] Instance kept_po : PreOrder kept.
Proof.
  split.
  - intros s. split; [done|]. split; [|done]. intros p d H. eauto.
  - intros s1 s2 s3 (D1 & F1 & J1) (D2 & F2 & J2). split; [|split].
    + intros p H. by apply D2, D1.
    + intros p d H. destruct (F1 p d H) as [d' H']. eauto.
    + intros j H. by apply J2, J1.
Qed.

#[local] Instance kept_gb : GenBlind kept.
Proof. intros s g. split; [done|]. split; [|done]. intros p d H. simpl. eauto. Qed.

Lemma kept_wrote p d s : fs s !! p ≠ Some Dir → kept s (wrote p d s).
Proof.
  intros Hp. split; [|split]; simpl; [| |done].
  - intros q Hq. rewrite lookup_insert_ne; [done|]. congruence.
  - intros q d' Hq. destruct (decide (p = q)) as [->|Hne].
    + rewrite lookup_insert_eq. eauto.
    + rewrite lookup_insert_ne by done. eauto.
Qed.

Lemma kept_made p s : fs s !! p = None → kept s (made p s).
Proof.
  intros Hp. split; [|split]; simpl; [| |done].
  - intros q Hq. rewrite lookup_insert_ne; [done|]. congruence.
  - intros q d' Hq. rewrite lookup_insert_ne; [eauto|]. congruence.
Qed.

Lemma kept_status j v s : kept s (job_manager.set_status j v s).2.
Proof.
  split; [done|]. split; [intros p d H; simpl; eauto|]. simpl.
  intros k Hk. destruct (decide (j = k)) as [->|Hne].
  - rewrite lookup_insert_eq. eauto.
  - by rewrite lookup_insert_ne.
Qed.

Lemma perform_kept a σ : kept (st σ) (st (perform cfg a σ)).
Proof.
  apply perform_keeps; try apply _.
  - apply kept_status.
  - intros j k im s _ Hp. by apply kept_wrote.
  - intros j js s _ Hp. by apply kept_wrote.
  - intros contents uuid. apply keeps_upload_image; [apply _| |].
    + intros s Hs. by apply (kept_made [uuid]).
    + intros im s Hp. by apply kept_wrote, is_dir_false.
Qed.

(** X11.  Whatever requests are served and whatever tasks run, from any
    state of the server: a directory stays a directory, a file stays a file
    (its content may be overwritten), and a job with a recorded status keeps
    having one.  No code path removes a job, a file or a status. *)
Theorem nothing_is_ever_removed (schedule : list action) (σ : loop_state) :
  (∀ p, fs (st σ) !! p = Some Dir →
        fs (st (run cfg schedule σ)) !! p = Some Dir)
  ∧ (∀ p d, fs (st σ) !! p = Some (File d) →
            ∃ d', fs (st (run cfg schedule σ)) !! p = Some (File d'))
  ∧ (∀ j, is_Some (jobs (st σ) !! j) →
          is_Some (jobs (st (run cfg schedule σ)) !! j)).
Proof. apply (run_keeps kept), perform_kept. Qed.

(** *** The lock has an owner *)

(** When the lock is held, some task is in its critical section. *)
Definition owned (σ : loop_state) : Prop :=
  locked σ = true →
  ∃ i t, tasks σ !! i = Some t ∧ in_critical t = true.

Lemma owned_perform a σ : owned σ → owned (perform cfg a σ).
Proof.
  intros Hown. destruct (action_cases a) as [[i ->]|Hreq].
  - simpl. destruct (advance_effect i σ)
      as [->|(t & t' & Hi & Ht & _ & _ & Hst)]; [done|].
    assert (Hi' : tasks (advance i σ) !! i = Some t').
    { rewrite Ht. apply list_lookup_insert_eq. by eapply lookup_lt_Some. }
    apply stage_critical in Hst
      as [(_ & Hc' & _)|[(_ & Hc' & _)|(_ & _ & Hl)]]; intros Hlocked.
    + eauto.
    + eauto.
    + congruence.
  - destruct (request_effect cfg a σ Hreq) as (Hl & _ & new & Ht & _).
    intros Hlocked. rewrite Hl in Hlocked.
    destruct (Hown Hlocked) as (i & t & Hi & Hc).
    exists i, t. split; [|done]. rewrite Ht. by apply lookup_app_l_Some.
Qed.

Lemma run_owned schedule s : owned (run cfg schedule (start s)).
Proof.
  apply run_invariant; [intros σ a; apply owned_perform|]. by intros [=].
Qed.

(** X12.  After any schedule the lock is held exactly when some task is
    between its first statement under the lock and the release: a run that
    fails releases the lock like one that returns, and the lock is never
    left held without an owner. *)
Theorem lock_is_held_iff_a_task_runs (s : state) (schedule : list action) :
  locked (run cfg schedule (start s))
  = existsb in_critical (tasks (run cfg schedule (start s))).
Proof.
  destruct (run_exclusive cfg schedule s) as [_ Hlock].
  pose proof (run_owned schedule s) as Hown.
  destruct (existsb in_critical (tasks (run cfg schedule (start s)))) eqn:E.
  - apply existsb_exists in E as (t & Hin & Hc).
    apply list_elem_of_In, list_elem_of_lookup in Hin as [i Hi]. eauto.
  - destruct (locked (run cfg schedule (start s))) eqn:Hl; [|done].
    destruct (Hown Hl) as (i & t & Hi & Hc).
    rewrite <- E. symmetry. apply existsb_exists. exists t.
    split; [|done]. apply list_elem_of_In. by eapply list_elem_of_lookup_2.
Qed.

End loop_properties.

(** ** The event loop: statuses and progress *)
Section loop_progress.
Context `{B : Backend}.
Variable cfg : config.Settings.
Import models loop.

(** Past the assignment of the status Processing. *)
Definition started (t : task) : bool :=
  match t_pc t with Waiting | Entered => false | _ => true end.

(** The jobs with a recorded status are those of the tasks that have
    started; no recorded status is Pending; a job is Processing only while
    a task of it is in its gateway call or just out of it. *)
Definition tracked (σ : loop_state) : Prop :=
  (∀ j, is_Some (jobs (st σ) !! j) →
        ∃ i t, tasks σ !! i = Some t ∧ t_job t = j ∧ started t = true)
  ∧ (∀ i t, tasks σ !! i = Some t → started t = true →
            is_Some (jobs (st σ) !! t_job t))
  ∧ (∀ j, jobs (st σ) !! j ≠ Some PENDING)
  ∧ (∀ j, jobs (st σ) !! j = Some PROCESSING →
          ∃ i t, tasks σ !! i = Some t ∧ t_job t = j ∧ in_call t = true).

(** What a move does to the statuses and to the place of its task. *)
Lemma stage_status t t' σ σ' :
  stage t t' σ σ' →
  (jobs (st σ') = jobs (st σ) ∧ started t' = started t
   ∧ in_call t' = in_call t)
  ∨ (∃ v, jobs (st σ') = <[t_job t := v]> (jobs (st σ)) ∧ v ≠ PENDING
          ∧ started t' = true ∧ (v = PROCESSING → in_call t' = true)).
Proof.
  unfold started, in_call.
  intros [H1 Hl H2 Hl' Hs|H1 H2 Hl Hs|H1 H2 Hl Hs|r H1 H2 Hl Hs|r H1 H2 Hl Hs];
    rewrite H1, H2.
  - left. by rewrite Hs.
  - right. exists PROCESSING. by rewrite Hs.
  - left. rewrite Hs. split; [apply process_image_jobs|done].
  - right.
    exists (outcome_status (after_gateway (t_job t) (t_params t) r (st σ)).1).
    split.
    { rewrite Hs. apply (after_gateway_status (t_job t) (t_params t) r (st σ)).
      apply surjective_pairing. }
    by destruct (after_gateway _ _ _ _).1.
  - left. by rewrite Hs.
Qed.

Lemma tracked_perform a σ : tracked σ → tracked (perform cfg a σ).
Proof.
  intros (Hsome & Hstarted & Hnp & Hproc).
  destruct (action_cases a) as [[i ->]|Hreq].
  - simpl. destruct (advance_effect i σ)
      as [->|(t & t' & Hi & Ht & Hjob & _ & Hst)]; [done|].
    assert (Hi' : tasks (advance i σ) !! i = Some t').
    { rewrite Ht. apply list_lookup_insert_eq. by eapply lookup_lt_Some. }
    assert (Hother : ∀ k x, k ≠ i → tasks σ !! k = Some x →
                            tasks (advance i σ) !! k = Some x).
    { intros k x Hne Hk. by rewrite Ht, list_lookup_insert_ne. }
    destruct (stage_status _ _ _ _ Hst)
      as [(Hjobs & Hs & Hc)|(v & Hjobs & Hv & Hs & Hc)];
      unfold tracked; rewrite Hjobs.
    + split; [|split; [|split]].
      * intros j Hj. destruct (Hsome j Hj) as (k & x & Hk & Hx & Hsx).
        destruct (decide (k = i)) as [->|Hne].
        -- simplify_eq. exists i, t'. by rewrite Hs.
        -- exists k, x. eauto.
      * intros k x Hk Hsx. rewrite Ht in Hk.
        destruct (lookup_moved _ _ _ _ _ _ Hi Hk) as [[-> ->]|[_ Hk']].
        -- rewrite Hjob. apply (Hstarted i t Hi). by rewrite <- Hs.
        -- eauto.
      * done.
      * intros j Hj. destruct (Hproc j Hj) as (k & x & Hk & Hx & Hcx).
        destruct (decide (k = i)) as [->|Hne].
        -- simplify_eq. exists i, t'. by rewrite Hc.
        -- exists k, x. eauto.
    + split; [|split; [|split]].
      * intros j Hj. destruct (decide (j = t_job t)) as [->|Hne];
          [by exists i, t'|].
        rewrite lookup_insert_ne in Hj by done.
        destruct (Hsome j Hj) as (k & x & Hk & Hx & Hsx).
        exists k, x. split; [|done]. apply Hother; [|done].
        intros ->. simplify_eq.
      * intros k x Hk Hsx. rewrite Ht in Hk.
        destruct (lookup_moved _ _ _ _ _ _ Hi Hk) as [[-> ->]|[_ Hk']].
        -- rewrite Hjob, lookup_insert_eq. eauto.
        -- destruct (decide (t_job x = t_job t)) as [->|Hne].
           ++ rewrite lookup_insert_eq. eauto.
           ++ rewrite lookup_insert_ne by done. eauto.
      * intros j. destruct (decide (j = t_job t)) as [->|Hne].
        -- rewrite lookup_insert_eq. congruence.
        -- rewrite lookup_insert_ne by done. apply Hnp.
      * intros j Hj. destruct (decide (j = t_job t)) as [->|Hne].
        -- rewrite lookup_insert_eq in Hj. injection Hj as ->.
           exists i, t'. auto.
        -- rewrite lookup_insert_ne in Hj by done.
           destruct (Hproc j Hj) as (k & x & Hk & Hx & Hcx).
           exists k, x. split; [|done]. apply Hother; [|done].
           intros ->. simplify_eq.
  - destruct (request_effect cfg a σ Hreq) as (_ & Hjobs & new & Ht & Hnew).
    rewrite Forall_lookup in Hnew. unfold tracked. rewrite Hjobs, Ht.
    split; [|split; [|split]].
    + intros j Hj. destruct (Hsome j Hj) as (k & x & Hk & Hx & Hsx).
      exists k, x. eauto using lookup_app_l_Some.
    + intros k x Hk Hsx.
      apply lookup_app_Some in Hk as [Hk|[_ Hk]]; [eauto|].
      apply Hnew in Hk as [Hw _]. unfold started in Hsx. by rewrite Hw in Hsx.
    + done.
    + intros j Hj. destruct (Hproc j Hj) as (k & x & Hk & Hx & Hcx).
      exists k, x. eauto using lookup_app_l_Some.
Qed.

Lemma run_tracked schedule s :
  jobs s = ∅ → tracked (run cfg schedule (start s)).
Proof.
  intros Hs. apply run_invariant; [intros σ a; apply tracked_perform|].
  unfold tracked. simpl. rewrite Hs.
  split; [|split; [|split]].
  - intros j. rewrite lookup_empty. by intros [? [=]].
  - by intros i t.
  - intros j. by rewrite lookup_empty.
  - intros j. by rewrite lookup_empty.
Qed.

(** X13.  On a server that starts without recorded statuses, after any
    schedule the status of a job reads Pending exactly when none of its
    tasks has yet assigned Processing: a job whose tasks all still wait is
    Pending however long ago the generation was requested, and a job a run
    has started on never reads Pending again. *)
Theorem pending_until_a_run_starts (s : state) (schedule : list action)
    (job_id : string) :
  jobs s = ∅ →
  job_manager.get_job_status job_id (st (run cfg schedule (start s))) = PENDING
  ↔ (∀ i t, tasks (run cfg schedule (start s)) !! i = Some t →
            t_job t = job_id → started t = false).
Proof.
  intros Hs. destruct (run_tracked schedule s Hs) as (Hsome & Hstarted & Hnp & _).
  unfold job_manager.get_job_status. split.
  - intros Hp i t Hi Hjob. destruct (started t) eqn:Hst; [|done].
    destruct (Hstarted i t Hi Hst) as [v Hv]. rewrite Hjob in Hv.
    rewrite Hv in Hp. simpl in Hp. subst v. by destruct (Hnp job_id).
  - intros Hnone.
    destruct (jobs (st (run cfg schedule (start s))) !! job_id) as [v|] eqn:E;
      [|done].
    destruct (Hsome job_id) as (i & t & Hi & Hjob & Hst); [by rewrite E|].
    rewrite (Hnone i t Hi Hjob) in Hst. done.
Qed.

(** *** Every task can finish *)

(** The stages a task still has to go through. *)
Definition remaining (c : pc) : nat :=
  match c with
  | Waiting => 5 | Entered => 4 | Calling => 3 | Returned _ => 2
  | Leaving _ => 1 | Finished _ => 0
  end.

Definition work (l : list task) : nat :=
  sum_list_with (λ t, remaining (t_pc t)) l.

Lemma work_insert (l : list task) i t t' :
  l !! i = Some t →
  (work (<[i := t']> l) + remaining (t_pc t)
   = work l + remaining (t_pc t'))%nat.
Proof.
  unfold work. revert i. induction l as [|x l IH]; intros [|i] Hi; try done;
    simpl in *.
  - simplify_eq. lia.
  - specialize (IH i Hi). lia.
Qed.

Lemma work_pos (l : list task) :
  (0 < work l)%nat → ∃ i t, l !! i = Some t ∧ (0 < remaining (t_pc t))%nat.
Proof.
  unfold work. induction l as [|x l IH]; simpl; [lia|]. intros H.
  destruct (decide (0 < remaining (t_pc x))%nat) as [Hx|Hx].
  - by exists 0%nat, x.
  - destruct IH as (i & t & Hi & Ht); [lia|]. by exists (S i), t.
Qed.

Lemma work_zero (l : list task) i t :
  work l = 0%nat → l !! i = Some t → ∃ r, t_pc t = Finished r.
Proof.
  unfold work. revert i. induction l as [|x l IH]; intros [|i] Hw Hi; try done;
    simpl in *.
  - simplify_eq. destruct (t_pc t); simpl in Hw; try lia. eauto.
  - apply (IH i); [lia|done].
Qed.

(** The identity of the tasks: the job and the parameters of each. *)
Definition calls (l : list task) : list (string * GenerationParams) :=
  (λ t, (t_job t, t_params t)) <$> l.

(** A task that holds the lock, or waits for a lock that is free, moves
    when it is resumed. *)
Lemma advance_moves i t σ :
  tasks σ !! i = Some t →
  in_critical t = true ∨ (t_pc t = Waiting ∧ locked σ = false) →
  S (work (tasks (advance i σ))) = work (tasks σ)
  ∧ calls (tasks (advance i σ)) = calls (tasks σ).
Proof.
  intros Hi Hmove.
  assert (∃ t', tasks (advance i σ) = <[i := t']> (tasks σ)
                ∧ S (remaining (t_pc t')) = remaining (t_pc t)
                ∧ t_job t' = t_job t ∧ t_params t' = t_params t)
    as (t' & Ht & Hrem & Hjob & Hpar).
  { unfold advance. rewrite Hi. unfold advance_task, in_critical in *.
    destruct (t_pc t) as [| | |r|r|r] eqn:Hpc.
    - destruct Hmove as [[=]|[_ ->]]. by eexists.
    - by eexists.
    - destruct (controlnet.process_image _ _ _) as [r s1]. by eexists.
    - destruct (after_gateway _ _ _ _) as [r' s1]. by eexists.
    - by eexists.
    - by destruct Hmove as [[=]|[[=] _]]. }
  rewrite Ht. split.
  - pose proof (work_insert (tasks σ) i t t' Hi). lia.
  - unfold calls. rewrite list_fmap_insert, Hjob, Hpar.
    apply list_insert_id. by rewrite list_lookup_fmap, Hi.
Qed.

Lemma some_task_moves σ :
  owned σ → exclusive σ → (0 < work (tasks σ))%nat →
  ∃ i, S (work (tasks (advance i σ))) = work (tasks σ)
       ∧ calls (tasks (advance i σ)) = calls (tasks σ).
Proof.
  intros Hown [_ Hlock] Hw. destruct (locked σ) eqn:Hl.
  - destruct (Hown Hl) as (i & t & Hi & Hc). exists i.
    apply (advance_moves i t); auto.
  - apply work_pos in Hw as (i & t & Hi & Ht). exists i.
    apply (advance_moves i t); [done|]. right. split; [|done].
    destruct (in_critical t) eqn:Hc.
    { pose proof (Hlock i t Hi Hc). congruence. }
    unfold in_critical in Hc. destruct (t_pc t); simpl in *; try done; lia.
Qed.

(** Resuming tasks is enough to finish them all. *)
Lemma drain n σ :
  owned σ → exclusive σ → (work (tasks σ) ≤ n)%nat →
  ∃ js, work (tasks (run cfg (Resume <$> js) σ)) = 0%nat
        ∧ calls (tasks (run cfg (Resume <$> js) σ)) = calls (tasks σ).
Proof.
  revert σ. induction n as [|n IH]; intros σ Hown Hexc Hn.
  { exists []. simpl. split; [lia|done]. }
  destruct (decide (work (tasks σ) = 0%nat)) as [Hz|Hz]; [by exists []|].
  destruct (some_task_moves σ Hown Hexc) as (i & Hw & Hcalls); [lia|].
  destruct (IH (perform cfg (Resume i) σ)) as (js & Hjs & Hc).
  - by apply (owned_perform cfg).
  - by apply exclusive_perform.
  - simpl. lia.
  - exists (i :: js). split; [exact Hjs|]. etrans; [exact Hc|exact Hcalls].
Qed.

(** X14.  On a server that starts without recorded statuses, whatever has
    happened so far, the tasks can all be brought to their end by resuming
    tasks alone (no request, nothing from outside is needed: there is no
    deadlock on the lock).  Then the tasks are the same calls as before, all
    finished; the lock is free; and the job of every task reads Completed or
    Failed: none is left Pending or Processing. *)
Theorem every_task_can_finish (s : state) (schedule : list action) :
  jobs s = ∅ →
  ∃ js,
    calls (tasks (run cfg (schedule ++ (Resume <$> js)) (start s)))
    = calls (tasks (run cfg schedule (start s)))
    ∧ locked (run cfg (schedule ++ (Resume <$> js)) (start s)) = false
    ∧ ∀ i t,
        tasks (run cfg (schedule ++ (Resume <$> js)) (start s)) !! i = Some t →
        (∃ r, t_pc t = Finished r)
        ∧ (job_manager.get_job_status (t_job t)
             (st (run cfg (schedule ++ (Resume <$> js)) (start s)))
           = COMPLETED
           ∨ job_manager.get_job_status (t_job t)
               (st (run cfg (schedule ++ (Resume <$> js)) (start s)))
             = FAILED).
Proof.
  intros Hs.
  destruct (drain (work (tasks (run cfg schedule (start s))))
              (run cfg schedule (start s)))
    as (js & Hw & Hcalls);
    [apply (run_owned cfg)|apply run_exclusive|done|].
  exists js. rewrite <- (run_app cfg) in Hw, Hcalls.
  pose proof (run_owned cfg (schedule ++ (Resume <$> js)) s) as Hown.
  destruct (run_tracked (schedule ++ (Resume <$> js)) s Hs)
    as (_ & Hstarted & Hnp & Hproc).
  set (σ := run cfg (schedule ++ (Resume <$> js)) (start s)) in *.
  split; [done|]. split.
  - destruct (locked σ) eqn:Hl; [|done].
    destruct (Hown Hl) as (i & t & Hi & Hc).
    destruct (work_zero _ _ _ Hw Hi) as [r Hr].
    unfold in_critical in Hc. by rewrite Hr in Hc.
  - intros i t Hi. destruct (work_zero _ _ _ Hw Hi) as [r Hr].
    split; [eauto|].
    destruct (Hstarted i t Hi) as [v Hv]; [unfold started; by rewrite Hr|].
    unfold job_manager.get_job_status. rewrite Hv. simpl.
    destruct v; auto.
    + by destruct (Hnp (t_job t)).
    + destruct (Hproc _ Hv) as (k & x & Hk & _ & Hc).
      destruct (work_zero _ _ _ Hw Hk) as [r' Hr'].
      unfold in_call in Hc. by rewrite Hr' in Hc.
Qed.

End loop_progress.

(** ** The event loop: what a completed job has, and the input of a task *)
Section loop_files.
Context `{B : Backend}.
Variable cfg : config.Settings.
Import models loop.

Lemma kept_is_Some s s' p :
  kept s s' → is_Some (fs s !! p) → is_Some (fs s' !! p).
Proof.
  intros (HD & HF & _) [[|d] Hp]; [rewrite (HD p Hp); eauto|].
  destruct (HF p d Hp) as [d' ->]. eauto.
Qed.

(** A job that reads Completed has its directory and its metadata file. *)
Definition filed (σ : loop_state) : Prop :=
  ∀ j, jobs (st σ) !! j = Some COMPLETED →
       fs (st σ) !! [j] = Some Dir ∧ is_Some (fs (st σ) !! meta_path j).

Lemma filed_status (σ σ' : loop_state) job_id v :
  filed σ → v ≠ COMPLETED →
  st σ' = (job_manager.set_status job_id v (st σ)).2 → filed σ'.
Proof.
  intros Hf Hv Hs j. rewrite Hs. simpl. intros Hj.
  destruct (decide (job_id = j)) as [->|Hne].
  - rewrite lookup_insert_eq in Hj. congruence.
  - rewrite lookup_insert_ne in Hj by done. by apply Hf.
Qed.

Lemma filed_kept (σ σ' : loop_state) :
  filed σ → jobs (st σ') = jobs (st σ) → kept (st σ) (st σ') → filed σ'.
Proof.
  intros Hf Hjobs Hk j. rewrite Hjobs. intros Hj.
  destruct (Hf j Hj) as [Hd Hm]. split; [by apply Hk|by eapply kept_is_Some].
Qed.

Lemma filed_perform a σ : filed σ → filed (perform cfg a σ).
Proof.
  intros Hf. destruct (action_cases a) as [[i ->]|Hreq].
  - simpl. destruct (advance_effect i σ)
      as [->|(t & t' & _ & _ & _ & _ & Hst)]; [done|].
    destruct Hst as [_ _ _ _ Hs|_ _ _ Hs|_ _ _ Hs|r _ _ _ Hs|r _ _ _ Hs].
    + intros j. rewrite Hs. apply Hf.
    + by apply (filed_status σ _ (t_job t) PROCESSING).
    + apply (filed_kept σ); [done| |].
      * rewrite Hs. apply process_image_jobs.
      * apply (perform_kept cfg (Resume i)).
    + destruct r as [e|paths].
      { rewrite after_gateway_inl in Hs.
        by apply (filed_status σ _ (t_job t) FAILED). }
      rewrite after_gateway_inr in Hs.
      destruct (write_file _ _ (st σ)) as [[e|[]] s1] eqn:Hw;
        apply write_file_inv in Hw as [(? & -> & Hpar & _)|(? & ? & ->)];
        simplify_eq; [by apply (filed_status σ _ (t_job t) FAILED)|].
      apply is_dir_true in Hpar; [|done]. simpl in Hpar.
      intros j. rewrite Hs. simpl. intros Hj.
      destruct (decide (t_job t = j)) as [<-|Hne].
      * rewrite lookup_insert_ne by done. rewrite lookup_insert_eq. eauto.
      * rewrite lookup_insert_ne in Hj by done. destruct (Hf j Hj) as [Hd Hm].
        rewrite lookup_insert_ne by done.
        rewrite lookup_insert_ne; [done|].
        intros E. by apply meta_path_inj in E.
    + intros j. rewrite Hs. apply Hf.
  - destruct (request_effect cfg a σ Hreq) as (_ & Hjobs & _).
    apply (filed_kept σ); [done..|apply perform_kept].
Qed.

Lemma run_filed schedule s :
  jobs s = ∅ → filed (run cfg schedule (start s)).
Proof.
  intros Hs. apply run_invariant; [intros σ a; apply filed_perform|].
  intros j. simpl. by rewrite Hs, lookup_empty.
Qed.

(** X15.  On a server that starts without recorded statuses and without
    metadata files, a job that reads Completed after any schedule has a
    metadata file: the record of a task of that job, with valid parameters
    that ask for at least one sample; and a status poll then answers
    Completed with a list of images in which every result the record names
    is found. *)
Theorem completed_job_has_its_results (s : state) (schedule : list action)
    (job_id : string) :
  jobs s = ∅ → (∀ j, fs s !! meta_path j = None) →
  job_manager.get_job_status job_id (st (run cfg schedule (start s)))
  = COMPLETED →
  ∃ i t names,
    tasks (run cfg schedule (start s)) !! i = Some t
    ∧ t_job t = job_id ∧ valid (t_params t) = true
    ∧ names = controlnet.result_name
                <$> seq 0 (Z.to_nat (num_samples (t_params t)))
    ∧ names ≠ []
    ∧ fs (st (run cfg schedule (start s))) !! meta_path job_id
      = Some (File (FJson (job_manager.metadata (t_params t) names)))
    ∧ ∃ found,
        generation.get_job_status job_id (st (run cfg schedule (start s)))
        = (inr (mkGenerationResponse job_id COMPLETED None (Some found)),
           st (run cfg schedule (start s)))
        ∧ names ⊆ found.
Proof.
  intros Hs Hnone Hc.
  destruct (run_recorded cfg schedule s Hnone) as (Hvalid & Hmeta & _).
  pose proof (run_filed schedule s Hs job_id) as Hfiled.
  set (σ := run cfg schedule (start s)) in *.
  assert (jobs (st σ) !! job_id = Some COMPLETED) as Hj.
  { unfold job_manager.get_job_status in Hc.
    destruct (jobs (st σ) !! job_id) as [v|]; simpl in Hc; congruence. }
  destruct (Hfiled Hj) as [Hdir [d Hd]].
  destruct (Hmeta _ _ Hd) as (i & t & names & Hi & Hjob & -> & Hnames & Hfiles).
  exists i, t, names. pose proof (Hvalid i t Hi) as Hv.
  split; [done|]. split; [done|]. split; [done|]. split; [done|]. split.
  { rewrite Hnames. unfold valid, between in Hv.
    repeat (apply andb_prop in Hv as [Hv ?]).
    apply Z.leb_le in Hv.
    destruct (Z.to_nat (num_samples (t_params t))) eqn:E; [lia|done]. }
  split; [done|].
  exists (generation.glob_results job_id (st σ)). split.
  - unfold generation.get_job_status, bind.
    rewrite verify_job_id_present by (rewrite Hdir; eauto).
    unfold try_except. by rewrite Hc, bool_decide_eq_true_2.
  - intros name Hin. rewrite Hnames in Hin.
    apply list_elem_of_fmap in Hin as (k & -> & Hk). apply elem_of_seq in Hk.
    apply elem_of_glob_results. split; [apply result_name_matches|].
    destruct (Hfiles k) as [im Him]; [lia|]. unfold result_path in Him.
    rewrite Him. eauto.
Qed.

(** *** Every job directory has its input image *)

(** The entries right below the root are directories; every file is in one
    of them; and every one of them, but for [but], holds an image under
    [input.png]. *)
Definition housed_but (but : option string) (s : state) : Prop :=
  (∀ j n, fs s !! [j] = Some n → n = Dir)
  ∧ (∀ j name, is_Some (fs s !! [j; name]) → fs s !! [j] = Some Dir)
  ∧ (∀ j, Some j ≠ but → fs s !! [j] = Some Dir →
          ∃ im, fs s !! [j; "input.png"] = Some (File (FImage im))).

Definition housed : state → Prop := housed_but None.





Definition stays_housed : relation state := λ s s', housed s → housed s'.

#[local] Instance stays_housed_po : PreOrder stays_housed.
Proof.
  split; [intros s H; exact H|]. intros s1 s2 s3 H1 H2 H. by apply H2, H1.
Qed.

#[local] Instance stays_housed_gb : GenBlind stays_housed.
Proof. intros s g H. exact H. Qed.






End loop_files.

(** ** The properties above on the small backend *)
Section further_examples.
Import models loop.
#[local] Existing Instance toy.backend.

(** Three samples from the 640 x 480 input, with the seed 42. *)
Lemma generate_returns_first_of_batch_witness :
  (controlnet._generate (B := toy.backend) ((640, 480), 7)
     (toy.params 3 20 42) toy.uploaded).1
  = if decide (Z.to_nat (num_samples (toy.params 3 20 42))
               ≤ length [((512, 512), 199); ((512, 512), 200);
                         ((512, 512), 201)])%nat
    then inr (take (Z.to_nat (num_samples (toy.params 3 20 42)))
                [((512, 512), 199); ((512, 512), 200); ((512, 512), 201)])
    else inl (IndexError "index out of bounds").
Proof.
  apply (generate_returns_first_of_batch (B := toy.backend)
           ((640, 480), 7) (toy.params 3 20 42)
           toy.uploaded (seeding (toy.params 3 20 42) toy.uploaded).2
           ((512, 512), 157) ((512, 512), 157)
           [((512, 512), 199); ((512, 512), 200); ((512, 512), 201)]
           (45, 42)).
  - reflexivity.
  - reflexivity.
  - apply outcome_and_state. reflexivity.
  - reflexivity.
Defined.

(** The status of the completed job ["j"]. *)
Lemma status_lists_the_result_files_witness :
  ∃ r, generation.get_job_status "j" toy.completed = (inr r, toy.completed)
       ∧ g_status r = job_manager.get_job_status "j" toy.completed
       ∧ (g_status r ≠ COMPLETED → images r = None)
       ∧ (g_status r = COMPLETED →
          ∃ names, images r = Some names ∧ NoDup names
                   ∧ (∀ name, name ∈ names
                              ↔ (generation.is_result_png name = true
                                 ∧ is_Some (fs toy.completed !! ["j"; name])))
                   ∧ ("input.png" ∉ names) ∧ ("metadata.json" ∉ names)).
Proof.
  apply (status_lists_the_result_files "j" toy.completed).
  assert (fs toy.completed !! ["j"] = Some Dir) as -> by evaluate. eauto.
Defined.

(** The first run of the uploaded job, for two samples. *)
Lemma first_run_is_listed_exactly_witness :
  ∃ names,
    generation.get_job_status "j"
      (job_manager.process_job "j" (toy.params 2 20 42) toy.uploaded).2
    = (inr (mkGenerationResponse "j" COMPLETED None (Some names)),
       (job_manager.process_job "j" (toy.params 2 20 42) toy.uploaded).2)
    ∧ names ≡ₚ ["result_0.png"; "result_1.png"].
Proof.
  apply (first_run_is_listed_exactly "j" (toy.params 2 20 42) toy.uploaded).
  - intros name Hname. unfold toy.uploaded. simpl.
    rewrite lookup_insert_ne by (intros [= <-]; discriminate).
    by rewrite lookup_insert_ne.
  - apply outcome_and_state. evaluate.
Defined.

(** One generation for ["j"], run to its end, and one for ["k"] whose task
    has only taken the lock. *)
Definition one_done_one_entered : list action :=
  [ Generate (toy.params 1 20 42) "j"; Generate (toy.params 1 20 42) "k";
    Resume 0; Resume 0; Resume 0; Resume 0; Resume 0; Resume 1 ].

Lemma pending_until_a_run_starts_witness :
  job_manager.get_job_status "k"
    (st (run config.settings one_done_one_entered (start toy.two_uploads)))
  = PENDING
  ↔ (∀ i t,
       tasks (run config.settings one_done_one_entered
                (start toy.two_uploads)) !! i = Some t →
       t_job t = "k" → started t = false).
Proof.
  apply (pending_until_a_run_starts config.settings toy.two_uploads
           one_done_one_entered "k").
  reflexivity.
Defined.

Lemma every_task_can_finish_witness :
  ∃ js,
    calls (tasks (run config.settings
                    (one_done_one_entered ++ (Resume <$> js))
                    (start toy.two_uploads)))
    = calls (tasks (run config.settings one_done_one_entered
                      (start toy.two_uploads)))
    ∧ locked (run config.settings (one_done_one_entered ++ (Resume <$> js))
                (start toy.two_uploads)) = false
    ∧ ∀ i t,
        tasks (run config.settings (one_done_one_entered ++ (Resume <$> js))
                 (start toy.two_uploads)) !! i = Some t →
        (∃ r, t_pc t = Finished r)
        ∧ (job_manager.get_job_status (t_job t)
             (st (run config.settings
                    (one_done_one_entered ++ (Resume <$> js))
                    (start toy.two_uploads)))
           = COMPLETED
           ∨ job_manager.get_job_status (t_job t)
               (st (run config.settings
                      (one_done_one_entered ++ (Resume <$> js))
                      (start toy.two_uploads)))
             = FAILED).
Proof.
  apply (every_task_can_finish config.settings toy.two_uploads
           one_done_one_entered).
  reflexivity.
Defined.

Lemma completed_job_has_its_results_witness :
  ∃ i t names,
    tasks (run config.settings one_done_one_entered (start toy.two_uploads))
      !! i = Some t
    ∧ t_job t = "j" ∧ valid (t_params t) = true
    ∧ names = controlnet.result_name
                <$> seq 0 (Z.to_nat (num_samples (t_params t)))
    ∧ names ≠ []
    ∧ fs (st (run config.settings one_done_one_entered
                (start toy.two_uploads))) !! meta_path "j"
      = Some (File (FJson (job_manager.metadata (t_params t) names)))
    ∧ ∃ found,
        generation.get_job_status "j"
          (st (run config.settings one_done_one_entered
                 (start toy.two_uploads)))
        = (inr (mkGenerationResponse "j" COMPLETED None (Some found)),
           st (run config.settings one_done_one_entered
                 (start toy.two_uploads)))
        ∧ names ⊆ found.
Proof.
  apply (completed_job_has_its_results config.settings toy.two_uploads
           one_done_one_entered "j").
  - reflexivity.
  - intros j. unfold meta_path, toy.two_uploads, toy.uploaded. simpl.
    rewrite !lookup_insert_ne by (by intros [=]). apply lookup_empty.
  - evaluate.
Defined.

(** A server with nothing on it, and on it: an upload that is no image, the
    upload of a 640 x 480 image, a generation for it, and the first three
    stages of its task. *)
Definition empty_server : state :=
  {| jobs := ∅; fs := ∅; gen := (1, 1); log := [] |}.

Definition first_requests : list action :=
  [ Upload [] "i";
    Upload [Byte.x02; Byte.x80; Byte.x01; Byte.xe0; Byte.x05] "j";
    Generate (toy.params 1 20 42) "j"; Generate (toy.params 1 20 42) "i";
    Resume 0; Resume 0; Resume 0 ].


(** What these schedules give. *)
Lemma further_examples_values :
  t_pc <$> tasks (run config.settings one_done_one_entered
                    (start toy.two_uploads))
  = [Finished (inr ["result_0.png"]); Entered]
  ∧ job_manager.get_job_status "j"
      (st (run config.settings one_done_one_entered (start toy.two_uploads)))
    = COMPLETED
  ∧ job_manager.get_job_status "k"
      (st (run config.settings one_done_one_entered (start toy.two_uploads)))
    = PENDING
  ∧ (t_job <$> tasks (run config.settings first_requests (start empty_server)))
    = ["j"]
  ∧ fs (st (run config.settings first_requests (start empty_server))) !! ["i"]
    = None
  ∧ fs (st (run config.settings first_requests (start empty_server)))
      !! ["j"; "result_0.png"]
    = Some (File (FImage ((512, 512), 197))).
Proof. repeat split; evaluate. Qed.

End further_examples.
